(** * kisielk/cmd: a line-oriented command interpreter

    Shallow embedding of package [cmd] (functions [New], [parseLine], [one]
    and [Loop] of the Go source) together with the properties that its
    specification states about them.

    Conventions of the embedding.
    - A Go string is represented by the sequence of code points that a
      [range] loop yields over it; on valid UTF-8 text this sequence
      determines the string, so string equality, the empty string and
      concatenation are those of lists (byte strings that are not valid
      UTF-8 are outside the model).  [strings.Fields], [strings.TrimSpace],
      [bufio.Reader.ReadBytes] and [io.Writer] belong to the Go standard
      library; they are written here after their documentation, the first
      two over [unicode.IsSpace].
    - The callbacks stored in a [Cmd] ([CmdFn] handlers, [Default],
      [Tokens], a user supplied [EmptyLine]) are functions of their
      arguments only.  A callback may panic; the closure that [New] installs
      in [Default] does so when its slice index is out of range.
    - [one] is recursive through the [EmptyLine] closure installed by [New];
      the recursion is bounded by a fuel argument and [OutOfFuel] stands for
      a call that does not return within that bound.
    - The field [Trace] is ghost state: it is not a field of the Go struct.
      It records, in program order, the callback invocations, the assignments
      to [LastLine] and the writes, so that statements about the order and
      the number of these actions can be made. *)

From Stdlib Require Import NArith String Ascii.
From stdpp Require Import base option list gmap.

Local Open Scope N_scope.

(** * Definitions *)

(** ** Go strings *)

Abbreviation rune := N (only parsing).
Abbreviation gostring := (list N) (only parsing).

(** [str] turns an ASCII literal into the Go string with the same text. *)
Definition str (s : string) : gostring :=
  map N_of_ascii (list_ascii_of_string s).

(** The newline character of Go's ["\n"]. *)
Definition nl : rune := 10.

(** [unicode.IsSpace]: the code points with Unicode's White_Space property. *)
Definition IsSpace (r : rune) : bool :=
  ((9 <=? r) && (r <=? 13))            (* '\t' '\n' '\v' '\f' '\r' *)
  || (r =? 32)                         (* ' ' *)
  || (r =? 133) || (r =? 160)          (* U+0085 NEL, U+00A0 NBSP *)
  || (r =? 5760)                       (* U+1680 *)
  || ((8192 <=? r) && (r <=? 8202))    (* U+2000 .. U+200A *)
  || (r =? 8232) || (r =? 8233)        (* U+2028, U+2029 *)
  || (r =? 8239) || (r =? 8287)        (* U+202F, U+205F *)
  || (r =? 12288).                     (* U+3000 *)

(** [strings.TrimLeftFunc s unicode.IsSpace]. *)
Fixpoint TrimLeft (s : gostring) : gostring :=
  match s with
  | [] => []
  | r :: s' => if IsSpace r then TrimLeft s' else s
  end.

(** [strings.TrimSpace]: all leading and trailing white space removed. *)
Definition TrimSpace (s : gostring) : gostring :=
  reverse (TrimLeft (reverse (TrimLeft s))).

(** The scanning loop of [strings.Fields]: [cur] is the field being read
    (empty when the scan is between fields). *)
Fixpoint fieldsFrom (cur : gostring) (s : gostring) : list gostring :=
  match s with
  | [] => match cur with [] => [] | _ => [cur] end
  | r :: s' =>
      if IsSpace r
      then match cur with
           | [] => fieldsFrom [] s'
           | _ => cur :: fieldsFrom [] s'
           end
      else fieldsFrom (cur ++ [r]) s'
  end.

(** [strings.Fields]: the maximal runs of non-space characters, in order;
    the empty list when [s] holds white space only. *)
Definition Fields (s : gostring) : list gostring := fieldsFrom [] s.

(** ** Errors, results, streams *)

(** A Go [error] value: [None] is [nil], [Some m] an error with message [m]. *)
Definition error := option string.

Definition EOF : error := Some "EOF"%string.

(** Outcome of running Go code in the model. *)
Inductive result (A : Type) : Type :=
| Ok (a : A)      (* the call returned [a] *)
| Panic           (* the call panicked *)
| OutOfFuel.      (* the call did not return within the fuel given *)
Arguments Ok {A} a.
Arguments Panic {A}.
Arguments OutOfFuel {A}.

#[global] Instance result_ret : MRet result := fun A a => Ok a.

#[global] Instance result_bind : MBind result := fun A B k m =>
  match m with
  | Ok a => k a
  | Panic => Panic
  | OutOfFuel => OutOfFuel
  end.

(** An [io.Writer].  [written] lists the byte strings handed to [Write] so
    far, oldest first; [failure] decides, from that history and the string
    being written, which error the call returns. *)
Record Writer := {
  written : list gostring;
  failure : list gostring -> gostring -> error
}.

Definition Write (w : Writer) (p : gostring) : Writer * error :=
  ({| written := written w ++ [p]; failure := failure w |},
   failure w (written w) p).

(** A writer that accepts everything, such as a [bytes.Buffer]. *)
Definition Buffer : Writer := {| written := []; failure := fun _ _ => None |}.

(** [bufio.Reader.ReadBytes delim] on the input that is left: the bytes up
    to and including the first [delim], then the rest of the input; when the
    input ends before a [delim] is seen, what was read and [io.EOF]. *)
Fixpoint ReadBytes (delim : rune) (s : gostring) : gostring * error * gostring :=
  match s with
  | [] => ([], EOF, [])
  | r :: s' =>
      if r =? delim then ([r], None, s')
      else let '(line, err, rest) := ReadBytes delim s' in (r :: line, err, rest)
  end.

(** ** The interpreter *)

(** [const DefaultPrompt = "> "]. *)
Definition DefaultPrompt : gostring := Eval cbv in str "> ".

(** [type CmdFn func(args []string) (out string, err error)]. *)
Definition CmdFn := list gostring -> result (gostring * error).

(** The two kinds of value the [EmptyLine] field holds: the closure that
    [New] builds, which calls [one] again on the receiver, or a function
    supplied by the user. *)
Inductive EmptyLineFn :=
| RepeatLastLine
| UserEmptyLine (f : unit -> result (gostring * error)).

(** Actions recorded in the ghost trace. *)
Inductive Event :=
| CalledEmptyLine
| AssignedLastLine (line : gostring)
| LookedUp (cmd : gostring)
| CalledHandler (cmd : gostring) (args : list gostring)
| CalledDefault (line : gostring)
| Wrote (p : gostring).

(** [type Cmd struct].  In [Commands] a name bound to a nil function is
    represented as an absent name: [one] reads the table through
    [fn := c.Commands[cmd]; fn == nil] only, which does not tell them
    apart. *)
Record Cmd := {
  In : gostring;
  Out : Writer;
  Prompt : gostring;
  Commands : gmap gostring CmdFn;
  Default : gostring -> result (gostring * error);
  EmptyLine : EmptyLineFn;
  Tokens : gostring -> list gostring;
  LastLine : gostring;
  Trace : list Event
}.

Definition set_In (c : Cmd) (i : gostring) : Cmd :=
  {| In := i; Out := Out c; Prompt := Prompt c; Commands := Commands c;
     Default := Default c; EmptyLine := EmptyLine c; Tokens := Tokens c;
     LastLine := LastLine c; Trace := Trace c |}.

Definition set_Out (c : Cmd) (w : Writer) : Cmd :=
  {| In := In c; Out := w; Prompt := Prompt c; Commands := Commands c;
     Default := Default c; EmptyLine := EmptyLine c; Tokens := Tokens c;
     LastLine := LastLine c; Trace := Trace c |}.

Definition set_LastLine (c : Cmd) (l : gostring) : Cmd :=
  {| In := In c; Out := Out c; Prompt := Prompt c; Commands := Commands c;
     Default := Default c; EmptyLine := EmptyLine c; Tokens := Tokens c;
     LastLine := l; Trace := Trace c |}.

Definition record (e : Event) (c : Cmd) : Cmd :=
  {| In := In c; Out := Out c; Prompt := Prompt c; Commands := Commands c;
     Default := Default c; EmptyLine := EmptyLine c; Tokens := Tokens c;
     LastLine := LastLine c; Trace := Trace c ++ [e] |}.

(** [c.Out.Write([]byte(p))]. *)
Definition writeOut (c : Cmd) (p : gostring) : Cmd * error :=
  let '(w, err) := Write (Out c) p in (record (Wrote p) (set_Out c w), err).

(** The closure [New] stores in [Default]:
    [fmt.Sprintf("unrecognized command: %s\n", strings.Fields(line)[0]), nil];
    the index expression panics on an empty slice. *)
Definition default_Default (line : gostring) : result (gostring * error) :=
  match Fields line with
  | [] => Panic
  | f :: _ => Ok (str "unrecognized command: " ++ f ++ [nl], None)
  end.

(** [func New(c map[string]CmdFn, in io.Reader, out io.Writer) *Cmd]. *)
Definition New (c : gmap gostring CmdFn) (input : gostring) (out : Writer) : Cmd :=
  {| In := input; Out := out; Prompt := DefaultPrompt; Commands := c;
     Default := default_Default; EmptyLine := RepeatLastLine; Tokens := Fields;
     LastLine := []; Trace := [] |}.

(** [func (c *Cmd) parseLine(line string) (cmd string, args []string)]. *)
Definition parseLine (c : Cmd) (line : gostring) : gostring * list gostring :=
  let line := TrimSpace line in
  match line with
  | [] => ([], [])
  | _ =>
      match Tokens c line with
      | [] => ([], [])
      | cmd :: args => (cmd, args)
      end
  end.

(** The call [c.EmptyLine()], given the function [self] that runs [one] on
    the receiver.  The closure of [New] returns the empty string together
    with the result of [cmd.one(cmd.LastLine)] when [len(cmd.LastLine) > 0],
    and the empty string together with nil otherwise. *)
Definition callEmptyLine (self : Cmd -> gostring -> result (Cmd * error))
    (c : Cmd) : result (Cmd * (gostring * error)) :=
  match EmptyLine c with
  | RepeatLastLine =>
      match LastLine c with
      | [] => Ok (c, ([], None))
      | _ => '(c', err) ← self c (LastLine c); Ok (c', ([], err))
      end
  | UserEmptyLine f => r ← f tt; Ok (c, r)
  end.

(** The map index expression [c.Commands[cmd]]. *)
Definition lookupCmd (c : Cmd) (cmd : gostring) : option CmdFn :=
  Commands c !! cmd.

(** [func (c *Cmd) one(line string) error]. *)
Fixpoint one (fuel : nat) (c : Cmd) (line : gostring) : result (Cmd * error) :=
  match fuel with
  | O => OutOfFuel
  | S fuel' =>
      let '(cmd, args) := parseLine c line in
      '(c, (msg, cmderr)) ←
        match cmd with
        | [] => callEmptyLine (one fuel') (record CalledEmptyLine c)
        | _ =>
            let c := record (AssignedLastLine line) (set_LastLine c line) in
            let c := record (LookedUp cmd) c in
            match lookupCmd c cmd with
            | None =>
                let c := record (CalledDefault line) c in
                r ← Default c line; Ok (c, r)
            | Some fn =>
                let c := record (CalledHandler cmd args) c in
                r ← fn args; Ok (c, r)
            end
        end;
      match msg with
      | [] => Ok (c, cmderr)
      | _ =>
          let '(c, err) := writeOut c msg in
          match err with
          | Some _ => Ok (c, err)
          | None => Ok (c, cmderr)
          end
      end
  end.

(** [func (c *Cmd) Loop() error].  The buffered reader that [Loop] creates
    over [c.In] is represented by the field [In] itself, which holds the
    input not yet consumed. *)
Fixpoint Loop (fuel : nat) (c : Cmd) : result (Cmd * error) :=
  match fuel with
  | O => OutOfFuel
  | S fuel' =>
      let '(c, err) := writeOut c (Prompt c) in
      match err with
      | Some _ => Ok (c, err)
      | None =>
          let '(line, err, rest) := ReadBytes nl (In c) in
          let c := set_In c rest in
          match err with
          | Some _ => Ok (c, err)
          | None =>
              '(c, err) ← one fuel' c line;
              match err with
              | Some _ => Ok (c, err)
              | None => Loop fuel' c
              end
          end
      end
  end.

(** ** The commands of the repository's tests *)

(** [fmt.Sprintf("%v", args)] for a slice of strings: the elements separated
    by single spaces, in square brackets. *)
Fixpoint joinSpace (args : list gostring) : gostring :=
  match args with
  | [] => []
  | [a] => a
  | a :: rest => a ++ 32 :: joinSpace rest
  end.

Definition good : CmdFn := fun args =>
  Ok (str "good [" ++ joinSpace args ++ str "]" ++ [nl], None).

Definition bad : CmdFn := fun _ => Ok (str "bad" ++ [nl], Some "oops"%string).

Definition commands : gmap gostring CmdFn :=
  <[str "good" := good]> (<[str "bad" := bad]> ∅).

(** [TestOne]: the lines of [tests], fed to one interpreter in turn, with the
    output buffer read and reset after each. *)
Fixpoint runTests (c : Cmd) (ins : list gostring)
    : list (result (list gostring * error)) :=
  match ins with
  | [] => []
  | l :: ins' =>
      match one 2 (set_Out c Buffer) l with
      | Ok (c', e) => Ok (written (Out c'), e) :: runTests c' ins'
      | Panic => [Panic]
      | OutOfFuel => [OutOfFuel]
      end
  end.

(** ** Words and white space *)

(** A string of white space only, and a string free of white space. *)
Definition blank (s : gostring) : Prop := Forall (fun r => IsSpace r = true) s.
Definition solid (s : gostring) : Prop := Forall (fun r => IsSpace r = false) s.

(** A word: one or more characters, none of them white space. *)
Definition word (w : gostring) : Prop := w ≠ [] ∧ solid w.

(** The text of a line after its command name: every argument word preceded
    by the white space that separates it from what comes before. *)
Fixpoint spaced (tail : list (gostring * gostring)) : gostring :=
  match tail with
  | [] => []
  | (sep, a) :: tail' => sep ++ a ++ spaced tail'
  end.

Definition separated (tail : list (gostring * gostring)) : Prop :=
  Forall (fun p => (p.1 ≠ [] ∧ blank p.1) ∧ word p.2) tail.

(** ** The parts of [one] *)

(** The writes that [one] performs for the output [msg]: none when [msg] is
    empty, one otherwise. *)
Definition chunk (msg : gostring) : list gostring :=
  match msg with [] => [] | _ => [msg] end.

(** The last statements of [one]: the conditional write and the returned
    error. *)
Definition emit (c : Cmd) (msg : gostring) (cmderr : error) : Cmd * error :=
  match msg with
  | [] => (c, cmderr)
  | _ =>
      let '(c, err) := writeOut c msg in
      match err with
      | Some _ => (c, err)
      | None => (c, cmderr)
      end
  end.

(** The state in which [one] calls the handler or [Default]: [LastLine] is
    assigned, the table has been read, and the call [ev] is under way. *)
Definition dispatched (c : Cmd) (line cmd : gostring) (ev : Event) : Cmd :=
  record ev (record (LookedUp cmd)
    (record (AssignedLastLine line) (set_LastLine c line))).

(** The fields that [one] and [Loop] never assign. *)
Definition same_config (c c' : Cmd) : Prop :=
  Prompt c' = Prompt c ∧ Commands c' = Commands c ∧ Default c' = Default c ∧
  EmptyLine c' = EmptyLine c ∧ Tokens c' = Tokens c ∧
  failure (Out c') = failure (Out c).

(** The callback that [one] selects for a line, and what it returned:
    a handler of the table, [Default], or a user supplied [EmptyLine]. *)
Inductive selected (c : Cmd) (line : gostring)
    : Event → gostring → error → Prop :=
| selected_handler cmd args fn msg cmderr :
    parseLine c line = (cmd, args) → cmd ≠ [] →
    lookupCmd c cmd = Some fn → fn args = Ok (msg, cmderr) →
    selected c line (CalledHandler cmd args) msg cmderr
| selected_Default cmd args msg cmderr :
    parseLine c line = (cmd, args) → cmd ≠ [] →
    lookupCmd c cmd = None → Default c line = Ok (msg, cmderr) →
    selected c line (CalledDefault line) msg cmderr
| selected_EmptyLine f msg cmderr :
    (parseLine c line).1 = [] →
    EmptyLine c = UserEmptyLine f → f tt = Ok (msg, cmderr) →
    selected c line CalledEmptyLine msg cmderr.

(** The state in which the selected callback runs. *)
Definition calling (c : Cmd) (line : gostring) (ev : Event) : Cmd :=
  match ev with
  | CalledEmptyLine => record CalledEmptyLine c
  | _ => dispatched c line (parseLine c line).1 ev
  end.

(** The error that [one] returns once the selected callback has returned
    [(msg, cmderr)]: the error of the write when [msg] is written and the
    write fails, [cmderr] otherwise. *)
Definition returned (w : Writer) (msg : gostring) (cmderr : error) : error :=
  match chunk msg with
  | [] => cmderr
  | _ => match failure w (written w) msg with
         | Some e => Some e
         | None => cmderr
         end
  end.

(** ** The parts of [Loop] *)

(** A writer none of whose writes fails. *)
Definition accepting (w : Writer) : Prop := ∀ hist p, failure w hist p = None.

(** The state of an iteration of [Loop] after the prompt was written and a
    line was taken from the input, of which [rest] remains. *)
Definition prompted (c : Cmd) (rest : gostring) : Cmd :=
  set_In (writeOut c (Prompt c)).1 rest.

(** ** Unknown commands *)

(** The closure that an earlier revision of [New] stores in [Default]:
    [fmt.Sprintf("unrecognized input: %s\n", line), nil]. *)
Definition default_Default_input (line : gostring) : result (gostring * error) :=
  Ok (str "unrecognized input: " ++ line ++ [nl], None).

(** [sub] occurs in [s] as a contiguous piece. *)
Definition occurs (sub s : gostring) : Prop := ∃ pre post, s = pre ++ sub ++ post.

(** ** Assignment of [LastLine] *)

(** The call that [one] makes for the command [cmd]: the handler bound to
    it, or [Default] on the raw line. *)
Definition callback (c : Cmd) (line cmd : gostring) (args : list gostring)
    : result (gostring * error) :=
  match lookupCmd c cmd with
  | Some fn => fn args
  | None => Default c line
  end.

Definition callbackEvent (c : Cmd) (line cmd : gostring) (args : list gostring)
    : Event :=
  match lookupCmd c cmd with
  | Some _ => CalledHandler cmd args
  | None => CalledDefault line
  end.

(** ** Write failures *)

(** A writer that refuses every write. *)
Definition brokenPipe : Writer :=
  {| written := []; failure := fun _ _ => Some "broken pipe"%string |}.

(** ** The invariant of [LastLine] *)

(** The assignment [c.Tokens = t]. *)
Definition set_Tokens (c : Cmd) (t : gostring → list gostring) : Cmd :=
  {| In := In c; Out := Out c; Prompt := Prompt c; Commands := Commands c;
     Default := Default c; EmptyLine := EmptyLine c; Tokens := t;
     LastLine := LastLine c; Trace := Trace c |}.

(** A tokenizer whose first token is the empty string. *)
Definition emptyFirst : gostring → list gostring := fun _ => [[]; str "x"].

(** The lines [lines] were handed to [one] in turn, each call returning. *)
Inductive processes : Cmd → list gostring → Cmd → Prop :=
| processes_nil c : processes c [] c
| processes_cons fuel c line c1 e lines c2 :
    one fuel c line = Ok (c1, e) →
    processes c1 lines c2 →
    processes c (line :: lines) c2.

(** The most recent line of [lines] for which the tokenizer of [c] yields a
    command name that is not empty; [init] when there is none. *)
Definition lastCommandLine (c : Cmd) (init : gostring) (lines : list gostring)
    : gostring :=
  foldl (fun last line =>
           if decide ((parseLine c line).1 = []) then last else line)
        init lines.

(** A tokenizer that yields an empty first token on lines that start with
    the character '#', and the fields of the line otherwise. *)
Definition hashTokens (s : gostring) : list gostring :=
  match s with
  | 35 :: _ => [] :: Fields s
  | _ => Fields s
  end.

(** ** A first token that is the empty string *)

(** The events that the dispatch of [line] itself would leave in the trace:
    the assignment of [line] to [LastLine], a lookup or a handler call for
    the empty command name, the call of [Default] on [line]. *)
Definition concerns (line : gostring) (ev : Event) : Prop :=
  match ev with
  | AssignedLastLine l => l = line
  | CalledDefault l => l = line
  | LookedUp cmd => cmd = []
  | CalledHandler cmd _ => cmd = []
  | CalledEmptyLine => False
  | Wrote _ => False
  end.

(** A user supplied [EmptyLine] that reports the event. *)
Definition sayEmpty : EmptyLineFn :=
  UserEmptyLine (fun _ => Ok (str "empty" ++ [nl], None)).

(** The assignment [c.EmptyLine = f]. *)
Definition set_EmptyLine (c : Cmd) (f : EmptyLineFn) : Cmd :=
  {| In := In c; Out := Out c; Prompt := Prompt c; Commands := Commands c;
     Default := Default c; EmptyLine := f; Tokens := Tokens c;
     LastLine := LastLine c; Trace := Trace c |}.

(** ** Calls that return *)

(** A configuration in which every call of [one] returns: the callbacks of
    the user return, [Default] returns on the lines it is called on, and the
    line that the [EmptyLine] of [New] would repeat has a command name. *)
Definition well_behaved (c : Cmd) : Prop :=
  (∀ cmd fn args, Commands c !! cmd = Some fn → ∃ r, fn args = Ok r) ∧
  (∀ line, (parseLine c line).1 ≠ [] → ∃ r, Default c line = Ok r) ∧
  match EmptyLine c with
  | UserEmptyLine f => ∃ r, f tt = Ok r
  | RepeatLastLine => LastLine c = [] ∨ (parseLine c (LastLine c)).1 ≠ []
  end.

(** ** The order of prompts and outputs in [Loop] *)

(** The input stream that carries the lines [lines], each followed by a
    newline. *)
Fixpoint feed (lines : list gostring) : gostring :=
  match lines with
  | [] => []
  | l :: lines' => l ++ nl :: feed lines'
  end.

(** [dialogue p tail c lines t c' e]: the interpreter [c], whose prompt is
    [p] and whose input holds the lines [lines] and then the characters
    [tail] that no newline ends, writes the strings [t] and ends in the
    state [c'] with the error [e].  For each line, in order, [t] holds the
    prompt and then what [one] writes for that line; it ends after the
    output of the first line for which [one] returns an error, or, when
    there is no such line, with the prompt that precedes the failed read. *)
Inductive dialogue (p tail : gostring)
    : Cmd → list gostring → list gostring → Cmd → error → Prop :=
| dialogue_eof c :
    Prompt c = p →
    dialogue p tail c [] [p] (prompted c []) EOF
| dialogue_error c l ls fuel c' e o :
    Prompt c = p →
    one fuel (prompted c (feed ls ++ tail)) (l ++ [nl]) = Ok (c', Some e) →
    written (Out c') = written (Out (prompted c (feed ls ++ tail))) ++ o →
    dialogue p tail c (l :: ls) (p :: o) c' (Some e)
| dialogue_next c l ls fuel c' o t c'' e :
    Prompt c = p →
    one fuel (prompted c (feed ls ++ tail)) (l ++ [nl]) = Ok (c', None) →
    written (Out c') = written (Out (prompted c (feed ls ++ tail))) ++ o →
    dialogue p tail c' ls t c'' e →
    dialogue p tail c (l :: ls) (p :: o ++ t) c'' e.

(** [answer c last line msg err last']: what the callbacks of [c] yield for
    [line] when [last] is the line stored in [LastLine].  A line with a
    command name gets the output and the error of its handler or of
    [Default], and is stored; a line without one gets those of the user's
    [EmptyLine], or, with the [EmptyLine] of [New], those of the handler or
    [Default] of the stored line, nothing and nil when no line is stored. *)
Inductive answer (c : Cmd) (last line : gostring)
    : gostring → error → gostring → Prop :=
| answer_command ev msg cmderr :
    (parseLine c line).1 ≠ [] → selected c line ev msg cmderr →
    answer c last line msg cmderr line
| answer_EmptyLine msg cmderr :
    selected c line CalledEmptyLine msg cmderr →
    answer c last line msg cmderr last
| answer_nothing :
    (parseLine c line).1 = [] → EmptyLine c = RepeatLastLine → last = [] →
    answer c last line [] None last
| answer_repeat ev msg cmderr :
    (parseLine c line).1 = [] → EmptyLine c = RepeatLastLine →
    (parseLine c last).1 ≠ [] → selected c last ev msg cmderr →
    answer c last line msg cmderr last.

(** [session c last lines t e]: the strings [t] that the output stream is
    to receive, and the error [e] that ends the loop, when the input holds
    the lines [lines] and [last] is the line stored in [LastLine].  For each
    line in order, [t] holds the prompt and then the output of the callback
    for that line, when it is not empty; [t] ends with the output of the
    first line whose callback returns an error, which is [e], or, when there
    is no such line, with one more prompt, and [e] is [io.EOF]. *)
Inductive session (c : Cmd)
    : gostring → list gostring → list gostring → error → Prop :=
| session_eof last :
    session c last [] [Prompt c] EOF
| session_error last l ls msg e last' :
    answer c last (l ++ [nl]) msg (Some e) last' →
    session c last (l :: ls) (Prompt c :: chunk msg) (Some e)
| session_next last l ls msg last' t e :
    answer c last (l ++ [nl]) msg None last' →
    session c last' ls t e →
    session c last (l :: ls) (Prompt c :: chunk msg ++ t) e.

(** What a call wrote and returned, the final state left out. *)
Definition observe (r : result (Cmd * error)) : result (list gostring * error) :=
  '(c, e) ← r; Ok (written (Out c), e).

(** ** The example console and the earlier revision *)

(** [func hello(args []string) (string, error)] of the examples;
    [joinSpace args] is also what [strings.Join(args, " ")] returns. *)
Definition hello : CmdFn := fun args =>
  match args with
  | [] => Ok (str "What's your name?" ++ [nl], None)
  | _ => Ok (str "Hello, " ++ joinSpace args ++ [nl], None)
  end.

(** The interpreter that [Example_std] and [main] build:
    [cmd.New(map[string]cmd.CmdFn{"hello": hello}, in, out)]. *)
Definition console (input : gostring) (out : Writer) : Cmd :=
  New {[ str "hello" := hello ]} input out.

Module Earlier.

(** [parseLine] of the earlier revision of the package, which has no
    [Tokens] field: it splits with [bytes.Fields] and appends the fields
    after the first to [args] one by one. *)
Definition parseLine (line : gostring) : gostring * list gostring :=
  let line := TrimSpace line in
  match line with
  | [] => ([], [])
  | _ =>
      match Fields line with
      | [] => ([], [])
      | f :: fields => (f, foldl (fun args f => args ++ [f]) [] fields)
      end
  end.

(** [New] of the earlier revision: its [Default] echoes the raw line.  The
    revision always splits with [bytes.Fields], which the value of [Tokens]
    stands for. *)
Definition New (c : gmap gostring CmdFn) (input : gostring) (out : Writer) : Cmd :=
  {| In := input; Out := out; Prompt := DefaultPrompt; Commands := c;
     Default := default_Default_input; EmptyLine := RepeatLastLine;
     Tokens := Fields; LastLine := []; Trace := [] |}.

End Earlier.

(** The loop of [TestOne] without its checks: [one] is called on each line
    in turn, whatever error the call before returned. *)
Fixpoint ones (fuel : nat) (c : Cmd) (lines : list gostring) : result Cmd :=
  match lines with
  | [] => Ok c
  | line :: lines' => '(c', _) ← one fuel c line; ones fuel c' lines'
  end.

(** A configuration none of whose callbacks returns an error: it is well
    behaved and the errors returned are nil. *)
Definition quiet (c : Cmd) : Prop :=
  (∀ cmd fn args, Commands c !! cmd = Some fn → ∃ msg, fn args = Ok (msg, None)) ∧
  (∀ line, (parseLine c line).1 ≠ [] → ∃ msg, Default c line = Ok (msg, None)) ∧
  match EmptyLine c with
  | UserEmptyLine f => ∃ msg, f tt = Ok (msg, None)
  | RepeatLastLine => LastLine c = [] ∨ (parseLine c (LastLine c)).1 ≠ []
  end.

(** * Properties *)

(** ** The commands of the repository's tests *)

Example TestOne :
  runTests (New commands [] Buffer)
    [str "hello "; str "  "; str "good"; str "good arg1 arg2"; str "bad"]
  = [Ok ([str "unrecognized command: hello" ++ [nl]], None);
     Ok ([str "unrecognized command: hello" ++ [nl]], None);
     Ok ([str "good []" ++ [nl]], None);
     Ok ([str "good [arg1 arg2]" ++ [nl]], None);
     Ok ([str "bad" ++ [nl]], Some "oops"%string)].
Proof. vm_compute. reflexivity. Qed.

(** ** Facts about [Fields] and [TrimSpace] *)

Lemma fieldsFrom_solid w cur s :
  solid w → fieldsFrom cur (w ++ s) = fieldsFrom (cur ++ w) s.
Proof.
  intros Hw. revert cur. induction Hw as [|r w Hr _ IH]; intros cur; simpl.
  - by rewrite app_nil_r.
  - rewrite Hr, IH. by rewrite <- app_assoc.
Qed.

Lemma fieldsFrom_blank_nil b s :
  blank b → fieldsFrom [] (b ++ s) = fieldsFrom [] s.
Proof. induction 1 as [|r b Hr _ IH]; simpl; [done|]. by rewrite Hr. Qed.

Lemma fieldsFrom_blank_cur cur b s :
  cur ≠ [] → b ≠ [] → blank b →
  fieldsFrom cur (b ++ s) = cur :: fieldsFrom [] s.
Proof.
  intros Hcur Hb Hbl. destruct Hbl as [|r b Hr Hbl]; [done|]. simpl.
  rewrite Hr. destruct cur; [done|]. by rewrite fieldsFrom_blank_nil.
Qed.

Lemma fieldsFrom_end_blank cur b :
  blank b → fieldsFrom cur b = fieldsFrom cur [].
Proof.
  intros Hbl. destruct Hbl as [|r b Hr Hbl]; [done|]. simpl. rewrite Hr.
  rewrite <- (app_nil_r b), fieldsFrom_blank_nil by done. by destruct cur.
Qed.

Lemma fieldsFrom_app_blank cur s b :
  blank b → fieldsFrom cur (s ++ b) = fieldsFrom cur s.
Proof.
  intros Hbl. revert cur. induction s as [|r s IH]; intros cur; simpl.
  - by apply fieldsFrom_end_blank.
  - destruct (IsSpace r); [destruct cur|]; by rewrite IH.
Qed.

(** What [TrimLeft] removes is white space, and what it leaves does not
    start with white space. *)
Lemma TrimLeft_split s :
  ∃ b, blank b ∧ s = b ++ TrimLeft s.
Proof.
  induction s as [|r s (b & Hb & IH)]; simpl.
  - exists []. split; [constructor|done].
  - destruct (IsSpace r) eqn:Hr.
    + exists (r :: b). split; [by constructor|]. simpl. by f_equal.
    + exists []. split; [constructor|done].
Qed.

Lemma TrimLeft_head s r t : TrimLeft s = r :: t → IsSpace r = false.
Proof.
  induction s as [|r' s IH]; simpl; [done|].
  destruct (IsSpace r') eqn:Hr; [done|]. by intros [= -> ->].
Qed.

Lemma TrimLeft_nil s : TrimLeft s = [] ↔ blank s.
Proof.
  split.
  - intros H. destruct (TrimLeft_split s) as (b & Hb & Hs).
    rewrite H, app_nil_r in Hs. by subst.
  - induction 1 as [|r s Hr _ IH]; simpl; [done|]. by rewrite Hr.
Qed.

Lemma blank_reverse s : blank (reverse s) ↔ blank s.
Proof. apply Forall_reverse. Qed.

(** [TrimSpace] removes a blank prefix and a blank suffix. *)
Lemma TrimSpace_split s :
  ∃ b1 b2, blank b1 ∧ blank b2 ∧ s = b1 ++ TrimSpace s ++ b2.
Proof.
  destruct (TrimLeft_split s) as (b1 & Hb1 & Hs).
  destruct (TrimLeft_split (reverse (TrimLeft s))) as (b2 & Hb2 & Hr).
  exists b1, (reverse b2). split; [done|]. split; [by apply blank_reverse|].
  unfold TrimSpace. rewrite <- reverse_app, <- Hr, reverse_involutive. done.
Qed.

Lemma TrimSpace_nil s : TrimSpace s = [] ↔ blank s.
Proof.
  split.
  - intros H. destruct (TrimSpace_split s) as (b1 & b2 & H1 & H2 & Hs).
    rewrite H in Hs. subst s. by apply Forall_app.
  - intros H. unfold TrimSpace.
    assert (TrimLeft s = []) as -> by by apply TrimLeft_nil. done.
Qed.

(** Trimming does not change the fields. *)
Lemma Fields_TrimSpace s : Fields (TrimSpace s) = Fields s.
Proof.
  destruct (TrimSpace_split s) as (b1 & b2 & H1 & H2 & Hs).
  rewrite Hs at 2. unfold Fields.
  by rewrite fieldsFrom_blank_nil, fieldsFrom_app_blank.
Qed.

Lemma fieldsFrom_cur_nonempty cur s : cur ≠ [] → fieldsFrom cur s ≠ [].
Proof.
  revert cur. induction s as [|r s IH]; intros cur Hcur; simpl.
  - by destruct cur.
  - destruct (IsSpace r); [by destruct cur|]. apply IH. by destruct cur.
Qed.

Lemma Fields_nil s : Fields s = [] ↔ blank s.
Proof.
  unfold Fields. split.
  - induction s as [|r s IH]; simpl; [constructor|].
    destruct (IsSpace r) eqn:Hr.
    + intros H. constructor; [done|by apply IH].
    + intros H. by apply fieldsFrom_cur_nonempty in H.
  - intros H. by rewrite fieldsFrom_end_blank.
Qed.

(** The index [strings.Fields(line)[0]] is in range as soon as the
    trimmed line is not empty. *)
Lemma Fields_nonempty s : TrimSpace s ≠ [] → Fields s ≠ [].
Proof. rewrite Fields_nil, <- TrimSpace_nil. done. Qed.

(** Every field is a word. *)
Lemma fieldsFrom_words cur s :
  solid cur → Forall word (fieldsFrom cur s).
Proof.
  revert cur. induction s as [|r s IH]; intros cur Hcur; simpl.
  - destruct cur; [constructor|]. constructor; [by split|constructor].
  - destruct (IsSpace r) eqn:Hr.
    + destruct cur as [|r' cur'].
      * apply IH. constructor.
      * constructor; [by split|]. apply IH. constructor.
    + apply IH. apply Forall_app. split; [done|]. by repeat constructor.
Qed.

Lemma Fields_words s : Forall word (Fields s).
Proof. apply fieldsFrom_words. constructor. Qed.

(** The first field is a piece of the string. *)
Lemma fieldsFrom_head cur s f fs :
  cur ≠ [] → fieldsFrom cur s = f :: fs → ∃ w t, f = cur ++ w ∧ s = w ++ t.
Proof.
  revert cur. induction s as [|r s IH]; intros cur Hcur; simpl.
  - destruct cur; [done|]. intros [= <- <-]. exists [], [].
    by rewrite app_nil_r.
  - destruct (IsSpace r).
    + destruct cur; [done|]. intros [= <- <-]. exists [], (r :: s).
      by rewrite app_nil_r.
    + intros H. apply IH in H as (w & t & -> & ->); [|by destruct cur].
      exists (r :: w), t. by rewrite <- app_assoc.
Qed.

Lemma Fields_head s f fs :
  Fields s = f :: fs → ∃ b t, s = b ++ f ++ t.
Proof.
  unfold Fields. destruct (TrimLeft_split s) as (b & Hb & Hs).
  rewrite Hs at 1. rewrite fieldsFrom_blank_nil by done.
  destruct (TrimLeft s) as [|r t] eqn:E; [done|].
  apply TrimLeft_head in E as Hr. simpl. rewrite Hr. simpl. intros H.
  apply fieldsFrom_head in H as (w & t' & -> & ->); [|done].
  exists b, t'. rewrite Hs. done.
Qed.

Lemma fieldsFrom_spaced cur tail trail :
  cur ≠ [] → separated tail → blank trail →
  fieldsFrom cur (spaced tail ++ trail) = cur :: map snd tail.
Proof.
  intros Hcur Htail Htrail. revert cur Hcur.
  induction Htail as [|[sep a] tail [[Hne Hsep] [Ha Hsolid]] _ IH];
    intros cur Hcur; simpl.
  - rewrite fieldsFrom_end_blank by done. by destruct cur.
  - rewrite <- !app_assoc, fieldsFrom_blank_cur by done.
    rewrite fieldsFrom_solid by done. simpl. by rewrite IH.
Qed.

Lemma Fields_spaced lead n tail trail :
  blank lead → word n → separated tail → blank trail →
  Fields (lead ++ n ++ spaced tail ++ trail) = n :: map snd tail.
Proof.
  intros Hlead [Hn Hsolid] Htail Htrail. unfold Fields.
  rewrite fieldsFrom_blank_nil, fieldsFrom_solid by done. simpl.
  by apply fieldsFrom_spaced.
Qed.

(** ** Facts about [parseLine] *)

(** With the tokenizer that [New] installs, the command name and the
    arguments are the fields of the raw line. *)
Lemma parseLine_Fields c line :
  Tokens c = Fields →
  parseLine c line =
    match Fields line with [] => ([], []) | cmd :: args => (cmd, args) end.
Proof.
  intros HT. unfold parseLine. rewrite HT, Fields_TrimSpace.
  destruct (TrimSpace line) eqn:E; [|done].
  apply TrimSpace_nil, Fields_nil in E. by rewrite E.
Qed.

(** A command name is only produced from a line that is not blank. *)
Lemma parseLine_cmd_trimmed c line :
  (parseLine c line).1 ≠ [] → TrimSpace line ≠ [].
Proof. unfold parseLine. by destruct (TrimSpace line). Qed.

(** ** Facts about [one] *)

Lemma one_unfold fuel c line :
  one (S fuel) c line =
    let '(cmd, args) := parseLine c line in
    '(c, (msg, cmderr)) ←
      match cmd with
      | [] => callEmptyLine (one fuel) (record CalledEmptyLine c)
      | _ =>
          match lookupCmd c cmd with
          | None =>
              r ← Default c line;
              Ok (dispatched c line cmd (CalledDefault line), r)
          | Some fn =>
              r ← fn args;
              Ok (dispatched c line cmd (CalledHandler cmd args), r)
          end
      end;
    Ok (emit c msg cmderr).
Proof.
  assert (∀ c' msg e,
    match msg with
    | [] => Ok (c', e)
    | _ => let '(c0, err) := writeOut c' msg in
           match err with Some _ => Ok (c0, err) | None => Ok (c0, e) end
    end = Ok (emit c' msg e)) as Hemit.
  { intros c' [|r msg] e; [done|]. unfold emit.
    destruct (writeOut c' (r :: msg)) as [c0 [w|]]; done. }
  cbn -[writeOut parseLine callEmptyLine lookupCmd].
  destruct (parseLine c line) as [cmd args].
  destruct cmd as [|r cmd].
  - destruct (callEmptyLine _ _) as [[c' [msg e]]| |]; cbn -[writeOut];
      [apply Hemit|done..].
  - destruct (lookupCmd c (r :: cmd)) as [fn|] eqn:E.
    + unfold lookupCmd in *. cbn -[writeOut] in *. rewrite E.
      destruct (fn args) as [[msg e]| |]; cbn -[writeOut]; [apply Hemit|done..].
    + unfold lookupCmd in *. cbn -[writeOut] in *. rewrite E.
      destruct (Default c line) as [[msg e]| |]; cbn -[writeOut];
        [apply Hemit|done..].
Qed.

Lemma one_selected fuel c line ev msg cmderr :
  selected c line ev msg cmderr →
  one (S fuel) c line = Ok (emit (calling c line ev) msg cmderr).
Proof.
  intros H. rewrite one_unfold.
  destruct H as [cmd args fn msg cmderr Hp Hne Hl Hfn
                |cmd args msg cmderr Hp Hne Hl Hd
                |f msg cmderr Hp Hf Hcall]; unfold calling.
  - rewrite Hp. simpl. destruct cmd; [done|]. by rewrite Hl, Hfn.
  - rewrite Hp. simpl. destruct cmd; [done|]. by rewrite Hl, Hd.
  - destruct (parseLine c line) as [cmd args]. simpl in Hp. subst cmd.
    unfold callEmptyLine. simpl. by rewrite Hf, Hcall.
Qed.

(** What the closing statements of [one] do to the state. *)
Lemma emit_spec c msg cmderr c' e :
  emit c msg cmderr = (c', e) →
  LastLine c' = LastLine c ∧ In c' = In c ∧ same_config c c' ∧
  Trace c' = Trace c ++ map Wrote (chunk msg) ∧
  written (Out c') = written (Out c) ++ chunk msg ∧
  e = match chunk msg with
      | [] => cmderr
      | _ => match failure (Out c) (written (Out c)) msg with
             | Some w => Some w
             | None => cmderr
             end
      end.
Proof.
  unfold emit, same_config. destruct msg as [|r msg]; simpl.
  - intros [= <- <-]. by rewrite !app_nil_r.
  - unfold writeOut, Write.
    destruct (failure (Out c) (written (Out c)) (r :: msg)) as [w|] eqn:E;
      intros [= <- <-]; simpl; by rewrite ?E.
Qed.

Lemma one_selected_spec fuel c line ev msg cmderr :
  selected c line ev msg cmderr →
  ∃ c', one (S fuel) c line = Ok (c', returned (Out c) msg cmderr) ∧
    LastLine c' = LastLine (calling c line ev) ∧
    In c' = In c ∧ same_config c c' ∧
    Trace c' = Trace (calling c line ev) ++ map Wrote (chunk msg) ∧
    written (Out c') = written (Out c) ++ chunk msg.
Proof.
  intros H. rewrite (one_selected _ _ _ _ _ _ H).
  destruct (emit (calling c line ev) msg cmderr) as [c' e] eqn:E.
  apply emit_spec in E as (HL & HI & HC & HT & HW & ->).
  exists c'. unfold returned.
  assert (Out (calling c line ev) = Out c ∧ In (calling c line ev) = In c
          ∧ same_config c (calling c line ev)) as (HO & HI' & HC').
  { unfold calling, same_config. by destruct ev. }
  rewrite HO in *. rewrite HI' in *. repeat split; try done.
  all: destruct HC as (?&?&?&?&?&?), HC' as (?&?&?&?&?&?); congruence.
Qed.

(** ** Dispatch to a registered handler *)

(** C1.  With the tokenizer [strings.Fields], a line made of a command name
    [n] bound in the table to the handler [h], followed by argument words
    separated by white space (and possibly surrounded by white space), makes
    [one] call [h] once, with exactly these words in order, after which it
    writes the string that [h] returned, if it is not empty, and nothing
    else. *)
Theorem one_calls_registered_handler
    c lead n tail trail (h : CmdFn) out err fuel :
  Tokens c = Fields →
  blank lead → word n → separated tail → blank trail →
  Commands c !! n = Some h →
  h (map snd tail) = Ok (out, err) →
  ∃ c',
    one (S fuel) c (lead ++ n ++ spaced tail ++ trail)
      = Ok (c', returned (Out c) out err) ∧
    Trace c' = Trace c ++
      [AssignedLastLine (lead ++ n ++ spaced tail ++ trail); LookedUp n;
       CalledHandler n (map snd tail)] ++ map Wrote (chunk out) ∧
    written (Out c') = written (Out c) ++ chunk out.
Proof.
  intros HT Hlead Hn Htail Htrail Hh Hout.
  set (line := lead ++ n ++ spaced tail ++ trail).
  assert (parseLine c line = (n, map snd tail)) as Hp.
  { rewrite parseLine_Fields by done. unfold line.
    by rewrite Fields_spaced. }
  assert (selected c line (CalledHandler n (map snd tail)) out err) as Hsel.
  { eapply selected_handler; eauto. by destruct Hn. }
  destruct (one_selected_spec fuel _ _ _ _ _ Hsel)
    as (c' & Hone & _ & _ & _ & Htr & Hw).
  exists c'. split; [done|]. split; [|done].
  rewrite Htr. unfold calling, dispatched. simpl. rewrite Hp. simpl.
  by rewrite <- !app_assoc.
Qed.

Lemma one_calls_registered_handler_witness :
  ∃ c',
    one 1 (New commands [] Buffer)
      ([] ++ str "good" ++
       spaced [(str " ", str "a"); (str "  ", str "b"); ([9], str "c")] ++ [nl])
      = Ok (c', None) ∧
    Trace c' =
      [AssignedLastLine (str "good a  b" ++ 9 :: str "c" ++ [nl]);
       LookedUp (str "good");
       CalledHandler (str "good") [str "a"; str "b"; str "c"];
       Wrote (str "good [a b c]" ++ [nl])] ∧
    written (Out c') = [str "good [a b c]" ++ [nl]].
Proof.
  apply (one_calls_registered_handler (New commands [] Buffer) [] (str "good")
           [(str " ", str "a"); (str "  ", str "b"); ([9], str "c")] [nl]
           good (str "good [a b c]" ++ [nl]) None 0).
  - reflexivity.
  - constructor.
  - vm_compute. split; [discriminate|]. repeat constructor.
  - vm_compute. repeat constructor; discriminate.
  - vm_compute. repeat constructor.
  - vm_compute. reflexivity.
  - vm_compute. reflexivity.
Defined.

(** ** Facts about [Loop] *)

Lemma prompted_spec c rest :
  same_config c (prompted c rest) ∧ LastLine (prompted c rest) = LastLine c ∧
  In (prompted c rest) = rest ∧
  Trace (prompted c rest) = Trace c ++ [Wrote (Prompt c)] ∧
  written (Out (prompted c rest)) = written (Out c) ++ [Prompt c].
Proof. done. Qed.

Lemma Loop_line fuel c line rest :
  failure (Out c) (written (Out c)) (Prompt c) = None →
  ReadBytes nl (In c) = (line, None, rest) →
  Loop (S fuel) c =
    '(c', err) ← one fuel (prompted c rest) line;
    match err with
    | Some _ => Ok (c', err)
    | None => Loop fuel c'
    end.
Proof.
  intros Hw Hr. unfold prompted. cbn -[one ReadBytes]. rewrite Hw.
  cbn -[one ReadBytes]. by rewrite Hr.
Qed.

Lemma Loop_read_error fuel c line e rest :
  failure (Out c) (written (Out c)) (Prompt c) = None →
  ReadBytes nl (In c) = (line, Some e, rest) →
  Loop (S fuel) c = Ok (prompted c rest, Some e).
Proof.
  intros Hw Hr. unfold prompted. cbn -[one ReadBytes]. rewrite Hw.
  cbn -[one ReadBytes]. by rewrite Hr.
Qed.

(** [ReadBytes] hands out the input one line at a time. *)
Lemma ReadBytes_line l rest :
  nl ∉ l → ReadBytes nl (l ++ nl :: rest) = (l ++ [nl], None, rest).
Proof.
  induction l as [|r l IH]; intros Hl; simpl; [done|].
  apply not_elem_of_cons in Hl as [Hr Hl].
  destruct (N.eqb_spec r nl) as [->|_]; [done|]. by rewrite IH.
Qed.

Lemma ReadBytes_eof l :
  nl ∉ l → ReadBytes nl l = (l, EOF, []).
Proof.
  induction l as [|r l IH]; intros Hl; simpl; [done|].
  apply not_elem_of_cons in Hl as [Hr Hl].
  destruct (N.eqb_spec r nl) as [->|_]; [done|]. by rewrite IH.
Qed.

(** The callback selected for a line depends on the configuration only. *)
Lemma parseLine_same_config c c' line :
  same_config c c' → parseLine c' line = parseLine c line.
Proof. intros (_ & _ & _ & _ & HT & _). unfold parseLine. by rewrite HT. Qed.

Lemma selected_same_config c c' line ev msg cmderr :
  same_config c c' → selected c line ev msg cmderr →
  selected c' line ev msg cmderr.
Proof.
  intros HC H. pose proof (parseLine_same_config _ _ line HC) as Hp.
  destruct HC as (_ & Hcmds & HD & HE & _ & _).
  destruct H; [eapply selected_handler|eapply selected_Default
              |eapply selected_EmptyLine]; rewrite ?Hp, ?HD, ?HE; eauto.
  all: unfold lookupCmd in *; by rewrite Hcmds.
Qed.

Lemma returned_accepting w msg cmderr :
  accepting w → returned w msg cmderr = cmderr.
Proof. intros H. unfold returned. rewrite H. by destruct (chunk msg). Qed.

(** ** Handler errors *)

(** C3.  When the line selects a handler that returns a non-empty output
    together with a non-nil error, and the writer accepts what it is given,
    [one] writes the output and then returns that very error; and [Loop],
    reading this line next from its input, returns that error after having
    written the prompt and the output and nothing after them. *)
Theorem handler_error_after_output c line cmd args (h : CmdFn) out e fuel :
  accepting (Out c) →
  parseLine c line = (cmd, args) → cmd ≠ [] →
  Commands c !! cmd = Some h →
  h args = Ok (out, Some e) → out ≠ [] →
  (∃ c', one (S fuel) c line = Ok (c', Some e) ∧
     written (Out c') = written (Out c) ++ [out] ∧
     last (Trace c') = Some (Wrote out)) ∧
  (∀ rest, ReadBytes nl (In c) = (line, None, rest) →
     ∃ c', Loop (S (S fuel)) c = Ok (c', Some e) ∧
       written (Out c') = written (Out c) ++ [Prompt c; out] ∧
       In c' = rest).
Proof.
  intros Hw Hp Hcmd Hh Hout Hne.
  assert (selected c line (CalledHandler cmd args) out (Some e)) as Hsel
    by (eapply selected_handler; eauto).
  assert (chunk out = [out]) as Hchunk by by destruct out.
  split.
  - destruct (one_selected_spec fuel _ _ _ _ _ Hsel)
      as (c' & Hone & _ & _ & _ & Htr & Hwr).
    rewrite returned_accepting in Hone by done. exists c'.
    rewrite Hone, Hwr, Htr, Hchunk. repeat split. simpl.
    by rewrite last_snoc.
  - intros rest Hr. rewrite (Loop_line _ _ _ _ (Hw _ _) Hr).
    destruct (prompted_spec c rest) as (HC & _ & HI & _ & HW).
    apply (selected_same_config _ _ _ _ _ _ HC) in Hsel.
    destruct (one_selected_spec fuel _ _ _ _ _ Hsel)
      as (c' & Hone & _ & HI' & _ & _ & Hwr).
    assert (accepting (Out (prompted c rest))) as Hw'.
    { intros hist p. destruct HC as (_ & _ & _ & _ & _ & ->). apply Hw. }
    rewrite returned_accepting in Hone by done. rewrite Hone. simpl.
    exists c'. rewrite Hwr, HW, Hchunk, HI', HI, <- app_assoc. done.
Qed.

Lemma handler_error_after_output_witness :
  let c := New commands (str "bad" ++ nl :: str "good" ++ [nl]) Buffer in
  (∃ c', one 1 c (str "bad" ++ [nl]) = Ok (c', Some "oops"%string) ∧
     written (Out c') = [str "bad" ++ [nl]] ∧
     last (Trace c') = Some (Wrote (str "bad" ++ [nl]))) ∧
  (∃ c', Loop 2 c = Ok (c', Some "oops"%string) ∧
     written (Out c') = [DefaultPrompt; str "bad" ++ [nl]] ∧
     In c' = str "good" ++ [nl]).
Proof.
  intros c.
  destruct (handler_error_after_output c (str "bad" ++ [nl]) (str "bad") []
              bad (str "bad" ++ [nl]) "oops"%string 0) as [Hone HLoop].
  - intros hist p. reflexivity.
  - vm_compute. reflexivity.
  - discriminate.
  - vm_compute. reflexivity.
  - reflexivity.
  - discriminate.
  - split; [exact Hone|]. apply HLoop. reflexivity.
Defined.

(** ** Unknown commands *)

(** What [parseLine] returns for a line that is not blank and for which
    the tokenizer yields at least one token. *)
Lemma parseLine_tokens c line n args :
  TrimSpace line ≠ [] → Tokens c (TrimSpace line) = n :: args →
  parseLine c line = (n, args).
Proof.
  intros Htrim Htok. unfold parseLine.
  destruct (TrimSpace line); [done|]. by rewrite Htok.
Qed.

(** A token of [strings.Fields] is never empty. *)
Lemma first_token_nonempty c line n args :
  n ≠ [] ∨ Tokens c = Fields → Tokens c (TrimSpace line) = n :: args → n ≠ [].
Proof.
  intros [Hn|HT] Htok; [done|]. rewrite HT in Htok.
  pose proof (Fields_words (TrimSpace line)) as HF. rewrite Htok in HF.
  inversion HF as [|? ? [? _]]; by subst.
Qed.

(** C4 fails for a tokenizer whose first token is not the first field of
    the line: here the first token of "hello" is "qqq", which is not in the
    table; the message that [one] writes names "hello" and does not contain
    "qqq". *)
Lemma unknown_token_not_in_message :
  let c := set_Tokens (New commands [] Buffer) (fun _ => [str "qqq"]) in
  Tokens c (TrimSpace (str "hello")) = [str "qqq"] ∧
  Commands c !! str "qqq" = None ∧
  Default c = default_Default ∧
  observe (one 1 c (str "hello"))
    = Ok ([str "unrecognized command: hello" ++ [nl]], None) ∧
  ¬ occurs (str "qqq") (str "unrecognized command: hello" ++ [nl]).
Proof.
  intros c. split; [reflexivity|]. split; [vm_compute; reflexivity|].
  split; [reflexivity|]. split; [vm_compute; reflexivity|].
  intros (pre & post & H).
  assert (113 ∈ str "unrecognized command: hello" ++ [nl]) as Hin.
  { rewrite H. apply elem_of_app. right. apply elem_of_app. left.
    by left. }
  vm_compute in Hin.
  repeat (apply elem_of_cons in Hin as [Hin|Hin]; [discriminate Hin|]).
  by apply elem_of_nil in Hin.
Qed.

(** C4, amended.  Whatever the tokenizer, with the [Default] that [New]
    installs, a line that is not blank and whose first token [n] is not the
    empty string and is not bound in the table makes [one] call [Default],
    write one message, which starts with "unrecognized" and contains the
    first field [f] of the raw line, and return nil, the write being
    accepted.  The message is "unrecognized command: f\n" (with the
    [Default] of the earlier revision, "unrecognized input: " followed by the
    raw line), and [f] is [n] when the tokenizer is [strings.Fields], whose
    tokens are never empty. *)
Theorem unknown_command_reported c line n args fuel :
  Default c = default_Default ∨ Default c = default_Default_input →
  TrimSpace line ≠ [] → Tokens c (TrimSpace line) = n :: args →
  n ≠ [] ∨ Tokens c = Fields →
  Commands c !! n = None →
  (∀ p, failure (Out c) (written (Out c)) p = None) →
  ∃ c' msg f fs,
    one (S fuel) c line = Ok (c', None) ∧
    written (Out c') = written (Out c) ++ [msg] ∧
    Trace c' = Trace c ++
      [AssignedLastLine line; LookedUp n; CalledDefault line; Wrote msg] ∧
    (∃ t, msg = str "unrecognized" ++ t) ∧
    Fields line = f :: fs ∧ occurs f msg ∧
    (Default c = default_Default →
       msg = str "unrecognized command: " ++ f ++ [nl]) ∧
    (Tokens c = Fields → f = n ∧ occurs n msg).
Proof.
  intros HD Htrim Htok Hne Hcmd Hw.
  pose proof (parseLine_tokens _ _ _ _ Htrim Htok) as Hp.
  pose proof (first_token_nonempty _ _ _ _ Hne Htok) as Hn.
  assert (∃ f fs, Fields line = f :: fs ∧
            default_Default line
            = Ok (str "unrecognized command: " ++ f ++ [nl], None))
    as (f & fs & HF & Hdd).
  { pose proof (Fields_nonempty line Htrim) as HF. unfold default_Default.
    destruct (Fields line) as [|f fs]; [done|]. eauto. }
  assert (∃ msg, Default c line = Ok (msg, None) ∧
            (∃ t, msg = str "unrecognized" ++ t) ∧ occurs f msg ∧
            (Default c = default_Default →
               msg = str "unrecognized command: " ++ f ++ [nl]))
    as (msg & Hmsg & Hpre & Hocc & Hexact).
  { destruct HD as [HD|HD]; rewrite HD.
    - rewrite Hdd. eexists. split; [done|].
      split; [by exists (str " command: " ++ f ++ [nl])|].
      split; [by exists (str "unrecognized command: "), [nl]|done].
    - unfold default_Default_input. eexists. split; [done|].
      split; [by exists (str " input: " ++ line ++ [nl])|].
      split.
      + destruct (Fields_head _ _ _ HF) as (b & t & ->).
        exists (str "unrecognized input: " ++ b), (t ++ [nl]).
        by rewrite <- !app_assoc.
      + intros E. apply (f_equal (fun f => f [])) in E. discriminate E. }
  assert (selected c line (CalledDefault line) msg None) as Hsel
    by (eapply selected_Default; eauto).
  assert (chunk msg = [msg]) as Hchunk.
  { destruct Hpre as [t ->]. done. }
  destruct (one_selected_spec fuel _ _ _ _ _ Hsel)
    as (c' & Hone & _ & _ & _ & Htr & Hwr).
  exists c', msg, f, fs. unfold returned in Hone. rewrite Hchunk, Hw in Hone.
  rewrite Hone, Hwr, Htr, Hchunk. unfold calling, dispatched. rewrite Hp.
  simpl. rewrite <- ?app_assoc.
  split; [done|]. split; [done|]. split; [done|]. split; [done|].
  split; [done|]. split; [done|]. split; [done|].
  intros HT. rewrite HT, Fields_TrimSpace, HF in Htok.
  injection Htok as <- <-. by split.
Qed.

Lemma unknown_command_reported_witness :
  ∃ c' msg,
    one 1 (New commands [] Buffer) (str "hello ") = Ok (c', None) ∧
    written (Out c') = [msg] ∧
    Trace c' =
      [AssignedLastLine (str "hello "); LookedUp (str "hello");
       CalledDefault (str "hello "); Wrote msg] ∧
    (∃ t, msg = str "unrecognized" ++ t) ∧ occurs (str "hello") msg ∧
    msg = str "unrecognized command: hello" ++ [nl].
Proof.
  destruct (unknown_command_reported (New commands [] Buffer) (str "hello ")
              (str "hello") [] 0)
    as (c' & msg & f & fs & Hone & HW & HT & Hpre & HF & _ & Hmsg & Hn).
  - left. reflexivity.
  - discriminate.
  - vm_compute. reflexivity.
  - left. discriminate.
  - vm_compute. reflexivity.
  - intros p. reflexivity.
  - exists c', msg. split; [exact Hone|]. split; [exact HW|].
    split; [exact HT|]. split; [exact Hpre|].
    destruct (Hn eq_refl) as [-> Hocc]. split; [exact Hocc|].
    exact (Hmsg eq_refl).
Defined.

(** ** Assignment of [LastLine] *)

Lemma selected_callback c line cmd args msg cmderr :
  parseLine c line = (cmd, args) → cmd ≠ [] →
  callback c line cmd args = Ok (msg, cmderr) →
  selected c line (callbackEvent c line cmd args) msg cmderr.
Proof.
  unfold callback, callbackEvent. intros Hp Hne Hcb.
  destruct (lookupCmd c cmd) as [fn|] eqn:E.
  - eapply selected_handler; eauto.
  - eapply selected_Default; eauto.
Qed.

(** C5 fails for a tokenizer that yields an empty first token: the line
    "#good x" makes [hashTokens] produce three tokens, and [one] neither
    assigns the line to [LastLine] nor calls a handler or [Default]. *)
Lemma LastLine_not_assigned_on_empty_first_token :
  let c := set_Tokens (New commands [] Buffer) hashTokens in
  Tokens c (TrimSpace (str "#good x")) = [[]; str "#good"; str "x"] ∧
  ∃ c', one 1 c (str "#good x") = Ok (c', None) ∧
    LastLine c' = [] ∧ LastLine c' ≠ str "#good x" ∧
    Trace c' = [CalledEmptyLine].
Proof.
  intros c. split; [vm_compute; reflexivity|].
  exists (record CalledEmptyLine c). split; [reflexivity|].
  split; [reflexivity|]. split; [discriminate|reflexivity].
Qed.

(** C5, amended.  Whatever the tokenizer, a line that is not blank and
    whose first token is not the empty string (as is every token of
    [strings.Fields]) makes [one] assign the raw line, as received, to
    [LastLine], and the assignment is the first thing it does: the table
    lookup and the call of the handler or of [Default] come after it in the
    trace.  This holds when the name is not in the table (the call is then
    that of [Default]) and whatever error the callback returns. *)
Theorem LastLine_assigned_before_dispatch c line n args msg cmderr fuel :
  TrimSpace line ≠ [] → Tokens c (TrimSpace line) = n :: args →
  n ≠ [] ∨ Tokens c = Fields →
  callback c line n args = Ok (msg, cmderr) →
  ∃ c' e,
    one (S fuel) c line = Ok (c', e) ∧
    LastLine c' = line ∧
    Trace c' = Trace c ++
      AssignedLastLine line :: LookedUp n :: callbackEvent c line n args
        :: map Wrote (chunk msg) ∧
    (Commands c !! n = None → callbackEvent c line n args = CalledDefault line) ∧
    (∀ fn, Commands c !! n = Some fn →
       callbackEvent c line n args = CalledHandler n args).
Proof.
  intros Htrim Htok Hne Hcb.
  pose proof (parseLine_tokens _ _ _ _ Htrim Htok) as Hp.
  pose proof (first_token_nonempty _ _ _ _ Hne Htok) as Hn.
  pose proof (selected_callback _ _ _ _ _ _ Hp Hn Hcb) as Hsel.
  destruct (one_selected_spec fuel _ _ _ _ _ Hsel)
    as (c' & Hone & HL & _ & _ & Htr & _).
  exists c', (returned (Out c) msg cmderr). split; [done|].
  assert (calling c line (callbackEvent c line n args)
          = dispatched c line n (callbackEvent c line n args)) as Hcall.
  { unfold calling, callbackEvent. rewrite Hp.
    by destruct (lookupCmd c n). }
  rewrite Hcall in *. split; [done|]. split.
  - rewrite Htr. simpl. by rewrite <- !app_assoc.
  - unfold callbackEvent, lookupCmd.
    split; [by intros ->|by intros fn ->].
Qed.

Lemma LastLine_assigned_before_dispatch_witness :
  let c := set_Tokens (New commands [] Buffer) hashTokens in
  ∃ c' e,
    one 1 c (str "  bad luck " ++ [nl]) = Ok (c', e) ∧
    LastLine c' = str "  bad luck " ++ [nl] ∧
    Trace c' =
      [AssignedLastLine (str "  bad luck " ++ [nl]); LookedUp (str "bad");
       CalledHandler (str "bad") [str "luck"]; Wrote (str "bad" ++ [nl])].
Proof.
  intros c.
  destruct (LastLine_assigned_before_dispatch c
              (str "  bad luck " ++ [nl]) (str "bad") [str "luck"]
              (str "bad" ++ [nl]) (Some "oops"%string) 0)
    as (c' & e & Hone & HL & HT & _ & Hev).
  - discriminate.
  - vm_compute. reflexivity.
  - left. discriminate.
  - vm_compute. reflexivity.
  - exists c', e. split; [exact Hone|]. split; [exact HL|].
    rewrite HT, (Hev bad); [reflexivity|]. vm_compute. reflexivity.
Defined.

(** ** Write failures *)

(** C7.  When the callback selected for the line (a handler, [Default] or a
    user supplied [EmptyLine]) returns a non-empty output and the write of
    that output fails, [one] returns the error of the write, whatever error
    the callback itself returned. *)
Theorem write_error_returned c line ev msg cmderr werr fuel :
  selected c line ev msg cmderr →
  msg ≠ [] →
  failure (Out c) (written (Out c)) msg = Some werr →
  ∃ c',
    one (S fuel) c line = Ok (c', Some werr) ∧
    written (Out c') = written (Out c) ++ [msg] ∧
    last (Trace c') = Some (Wrote msg).
Proof.
  intros Hsel Hne Hfail.
  destruct (one_selected_spec fuel _ _ _ _ _ Hsel)
    as (c' & Hone & _ & _ & _ & Htr & Hwr).
  assert (chunk msg = [msg]) as Hchunk by by destruct msg.
  unfold returned in Hone. rewrite Hchunk, Hfail in Hone.
  exists c'. rewrite Hone, Hwr, Htr, Hchunk. simpl. by rewrite last_snoc.
Qed.

Lemma write_error_returned_witness :
  ∃ c',
    one 1 (New commands [] brokenPipe) (str "bad")
      = Ok (c', Some "broken pipe"%string) ∧
    written (Out c') = [] ++ [str "bad" ++ [nl]] ∧
    last (Trace c') = Some (Wrote (str "bad" ++ [nl])).
Proof.
  apply (write_error_returned (New commands [] brokenPipe) (str "bad")
           (CalledHandler (str "bad") []) (str "bad" ++ [nl])
           (Some "oops"%string) "broken pipe"%string 0).
  - apply (selected_handler _ _ (str "bad") [] bad).
    + vm_compute. reflexivity.
    + discriminate.
    + vm_compute. reflexivity.
    + reflexivity.
  - discriminate.
  - reflexivity.
Defined.

(** ** Empty lines *)

(** With the [EmptyLine] of [New], a line without a command name repeats the
    stored line... *)
Lemma one_repeat fuel c line :
  (parseLine c line).1 = [] → EmptyLine c = RepeatLastLine → LastLine c ≠ [] →
  one (S fuel) c line = one fuel (record CalledEmptyLine c) (LastLine c).
Proof.
  intros Hp HE HL. rewrite one_unfold.
  destruct (parseLine c line) as [cmd args]. simpl in Hp. subst cmd.
  unfold callEmptyLine. simpl. rewrite HE.
  destruct (LastLine c) as [|r l] eqn:E; [done|].
  by destruct (one fuel _ _) as [[c' e]| |].
Qed.

(** ... and does nothing when no line is stored. *)
Lemma one_idle fuel c line :
  (parseLine c line).1 = [] → EmptyLine c = RepeatLastLine → LastLine c = [] →
  one (S fuel) c line = Ok (record CalledEmptyLine c, None).
Proof.
  intros Hp HE HL. rewrite one_unfold.
  destruct (parseLine c line) as [cmd args]. simpl in Hp. subst cmd.
  unfold callEmptyLine. simpl. by rewrite HE, HL.
Qed.

(** The three ways in which a call of [one] returns. *)
Lemma one_inv fuel c line c' e :
  one (S fuel) c line = Ok (c', e) →
  (∃ ev msg cmderr, selected c line ev msg cmderr ∧
     emit (calling c line ev) msg cmderr = (c', e)) ∨
  ((parseLine c line).1 = [] ∧ EmptyLine c = RepeatLastLine ∧
     LastLine c = [] ∧ c' = record CalledEmptyLine c ∧ e = None) ∨
  ((parseLine c line).1 = [] ∧ EmptyLine c = RepeatLastLine ∧
     LastLine c ≠ [] ∧
     one fuel (record CalledEmptyLine c) (LastLine c) = Ok (c', e)).
Proof.
  intros H. destruct (parseLine c line) as [cmd args] eqn:Hp.
  destruct cmd as [|r cmd].
  - destruct (EmptyLine c) as [|f] eqn:HE.
    + destruct (LastLine c) as [|r l] eqn:HL.
      * rewrite one_idle in H by (by rewrite ?Hp). injection H as <- <-.
        right. by left.
      * rewrite one_repeat in H by (by rewrite ?Hp, ?HL).
        right. right. by rewrite HL in H.
    + destruct (f tt) as [[msg cmderr]| |] eqn:Hf.
      * assert (selected c line CalledEmptyLine msg cmderr) as Hsel
          by (eapply selected_EmptyLine; eauto; by rewrite Hp).
        rewrite (one_selected _ _ _ _ _ _ Hsel) in H. injection H as H.
        left. eauto.
      * rewrite one_unfold, Hp in H. unfold callEmptyLine in H. simpl in H.
        by rewrite HE, Hf in H.
      * rewrite one_unfold, Hp in H. unfold callEmptyLine in H. simpl in H.
        by rewrite HE, Hf in H.
  - destruct (callback c line (r :: cmd) args) as [[msg cmderr]| |] eqn:Hcb.
    + pose proof (selected_callback _ _ _ _ _ _ Hp ltac:(done) Hcb) as Hsel.
      rewrite (one_selected _ _ _ _ _ _ Hsel) in H. injection H as H.
      left. eauto.
    + rewrite one_unfold, Hp in H. unfold callback in Hcb.
      destruct (lookupCmd c (r :: cmd)); by rewrite Hcb in H.
    + rewrite one_unfold, Hp in H. unfold callback in Hcb.
      destruct (lookupCmd c (r :: cmd)); by rewrite Hcb in H.
Qed.

Lemma same_config_refl c : same_config c c.
Proof. done. Qed.

Lemma same_config_trans c1 c2 c3 :
  same_config c1 c2 → same_config c2 c3 → same_config c1 c3.
Proof.
  intros (?&?&?&?&?&?) (?&?&?&?&?&?). unfold same_config.
  repeat split; congruence.
Qed.

Lemma calling_spec c line ev :
  same_config c (calling c line ev) ∧ In (calling c line ev) = In c ∧
  Out (calling c line ev) = Out c ∧
  LastLine (calling c line ev)
    = match ev with CalledEmptyLine => LastLine c | _ => line end.
Proof. unfold calling. by destruct ev. Qed.

(** What a returning call of [one] leaves behind: the configuration and the
    input are untouched, [LastLine] holds the line when it has a command
    name and is unchanged otherwise, and at most one string was written. *)
Lemma one_Ok_facts fuel c line c' e :
  one fuel c line = Ok (c', e) →
  same_config c c' ∧ In c' = In c ∧
  LastLine c' = (if decide ((parseLine c line).1 = []) then LastLine c else line) ∧
  ∃ o, written (Out c') = written (Out c) ++ o ∧ (length o ≤ 1)%nat.
Proof.
  revert c line c' e. induction fuel as [|fuel IH]; intros c line c' e H;
    [done|].
  apply one_inv in H as [(ev & msg & cmderr & Hsel & Hemit)
                        |[(Hp & HE & HL & -> & ->)|(Hp & HE & HL & H)]].
  - apply emit_spec in Hemit as (HL & HI & HC & _ & HW & _).
    destruct (calling_spec c line ev) as (HC' & HI' & HO' & HL').
    rewrite HL, HI, HW, HL', HI', HO'. split; [by eapply same_config_trans|].
    split; [done|]. split.
    + destruct Hsel as [cmd args fn msg cmderr Hp Hne _ _
                       |cmd args msg cmderr Hp Hne _ _
                       |f msg cmderr Hp _ _].
      * rewrite Hp. simpl. by rewrite decide_False.
      * rewrite Hp. simpl. by rewrite decide_False.
      * by rewrite decide_True.
    + exists (chunk msg). split; [done|]. destruct msg; simpl; lia.
  - rewrite decide_True by done. repeat split; try done.
    exists []. split; [by rewrite app_nil_r|simpl; lia].
  - apply IH in H as (HC & HI & HL' & o & HW & Ho). simpl in *.
    rewrite decide_True by done. split; [done|]. split; [done|]. split.
    + rewrite HL'. by destruct (decide _).
    + by exists o.
Qed.

(** More fuel does not change the result of a call that returns. *)
Lemma one_mono fuel fuel' c line r :
  one fuel c line = Ok r → (fuel ≤ fuel')%nat → one fuel' c line = Ok r.
Proof.
  revert fuel' c line r.
  induction fuel as [|fuel IH]; intros fuel' c line [c' e] H Hle; [done|].
  destruct fuel' as [|fuel']; [lia|].
  apply one_inv in H as [(ev & msg & cmderr & Hsel & Hemit)
                        |[(Hp & HE & HL & -> & ->)|(Hp & HE & HL & H)]].
  - by rewrite (one_selected _ _ _ _ _ _ Hsel), Hemit.
  - by rewrite one_idle.
  - rewrite one_repeat by done. apply IH; [done|lia].
Qed.

(** C6.  With the [EmptyLine] and the tokenizer of [New], a handler bound to
    "good" and a writer that accepts its input: after [one] has processed
    "good x", processing the blank line "  " calls the handler again, writes
    the same output a second time, returns the same error, and leaves
    [LastLine] equal to "good x". *)
Theorem blank_line_repeats_last_command c (h : CmdFn) out err fuel :
  Tokens c = Fields → EmptyLine c = RepeatLastLine → accepting (Out c) →
  Commands c !! str "good" = Some h →
  h [str "x"] = Ok (out, err) →
  ∃ c1 c2,
    one (S fuel) c (str "good x") = Ok (c1, err) ∧
    one (S (S fuel)) c1 (str "  ") = Ok (c2, err) ∧
    written (Out c1) = written (Out c) ++ chunk out ∧
    written (Out c2) = written (Out c1) ++ chunk out ∧
    Trace c2 = Trace c1 ++
      CalledEmptyLine :: AssignedLastLine (str "good x") :: LookedUp (str "good")
        :: CalledHandler (str "good") [str "x"] :: map Wrote (chunk out) ∧
    LastLine c1 = str "good x" ∧ LastLine c2 = str "good x".
Proof.
  intros HT HE Hw Hh Hout.
  assert (parseLine c (str "good x") = (str "good", [str "x"])) as Hp
    by by rewrite parseLine_Fields.
  assert (selected c (str "good x") (CalledHandler (str "good") [str "x"])
            out err) as Hsel by (eapply selected_handler; eauto; done).
  destruct (one_selected_spec fuel _ _ _ _ _ Hsel)
    as (c1 & Hone1 & HL1 & _ & HC1 & _ & HW1).
  rewrite returned_accepting in Hone1 by done.
  set (c1' := record CalledEmptyLine c1).
  assert (same_config c c1') as HC1' by done.
  apply (selected_same_config _ _ _ _ _ _ HC1') in Hsel as Hsel'.
  destruct (one_selected_spec fuel _ _ _ _ _ Hsel')
    as (c2 & Hone2 & HL2 & _ & _ & HT2 & HW2).
  assert (accepting (Out c1')) as Hw'.
  { intros hist p. destruct HC1' as (_ & _ & _ & _ & _ & ->). apply Hw. }
  rewrite returned_accepting in Hone2 by done.
  assert (parseLine c1' (str "good x") = (str "good", [str "x"])) as Hp'
    by by rewrite (parseLine_same_config c).
  exists c1, c2. split; [done|]. split.
  - rewrite one_repeat.
    + by rewrite HL1.
    + rewrite (parseLine_same_config c) by done. by rewrite parseLine_Fields.
    + by destruct HC1 as (_ & _ & _ & -> & _ & _).
    + by rewrite HL1.
  - split; [done|]. split; [done|]. split; [|by rewrite HL2].
    rewrite HT2. unfold calling, dispatched. rewrite Hp'. simpl.
    by rewrite <- !app_assoc.
Qed.

Lemma blank_line_repeats_last_command_witness :
  ∃ c1 c2,
    one 1 (New commands [] Buffer) (str "good x") = Ok (c1, None) ∧
    one 2 c1 (str "  ") = Ok (c2, None) ∧
    written (Out c1) = [] ++ chunk (str "good [x]" ++ [nl]) ∧
    written (Out c2) = written (Out c1) ++ chunk (str "good [x]" ++ [nl]) ∧
    Trace c2 = Trace c1 ++
      CalledEmptyLine :: AssignedLastLine (str "good x") :: LookedUp (str "good")
        :: CalledHandler (str "good") [str "x"]
        :: map Wrote (chunk (str "good [x]" ++ [nl])) ∧
    LastLine c1 = str "good x" ∧ LastLine c2 = str "good x".
Proof.
  apply (blank_line_repeats_last_command (New commands [] Buffer) good
           (str "good [x]" ++ [nl]) None 0).
  - reflexivity.
  - reflexivity.
  - intros hist p. reflexivity.
  - vm_compute. reflexivity.
  - reflexivity.
Defined.

(** ** The invariant of [LastLine] *)

(** C2 fails for a tokenizer that yields tokens of which the first is the
    empty string: the line "hello" makes it produce two tokens, and
    [LastLine] is still empty after [one] has processed that line. *)
Lemma LastLine_misses_tokenized_line :
  let c := set_Tokens (New commands [] Buffer) emptyFirst in
  ∃ c',
    one 1 c (str "hello") = Ok (c', None) ∧
    Tokens c (TrimSpace (str "hello")) = [[]; str "x"] ∧
    LastLine c' = [] ∧ LastLine c' ≠ str "hello".
Proof. eexists. vm_compute. repeat split. discriminate. Qed.

Lemma lastCommandLine_same_config c c' init lines :
  same_config c c' → lastCommandLine c' init lines = lastCommandLine c init lines.
Proof.
  intros HC. unfold lastCommandLine. revert init.
  induction lines as [|line lines IH]; intros init; simpl; [done|].
  by rewrite (parseLine_same_config c c'), IH.
Qed.

(** C2, amended.  Whatever the tokenizer, after every sequence of calls of
    [one], [LastLine] is the most recently processed line whose first token
    is not the empty string (its value before the calls when no such line
    was processed); a line with no token, or whose first token is empty,
    leaves [LastLine] as it was. *)
Theorem LastLine_is_last_command_line c lines c' :
  processes c lines c' →
  LastLine c' = lastCommandLine c (LastLine c) lines.
Proof.
  induction 1 as [c|fuel c line c1 e lines c2 Hone _ IH]; [done|].
  apply one_Ok_facts in Hone as (HC & _ & HL & _).
  rewrite IH, HL, (lastCommandLine_same_config c c1) by done. done.
Qed.

(** ** A first token that is the empty string *)

(** Nothing in the trace of a call of [one] concerns a line for which
    [parseLine] yields the empty command name. *)
Lemma one_trace_other_lines fuel c l c' e :
  one fuel c l = Ok (c', e) →
  ∃ evs, Trace c' = Trace c ++ evs ∧
    ∀ line, (parseLine c line).1 = [] →
      Forall (fun ev => ¬ concerns line ev) evs.
Proof.
  revert c l c' e. induction fuel as [|fuel IH]; intros c l c' e H; [done|].
  apply one_inv in H as [(ev & msg & cmderr & Hsel & Hemit)
                        |[(Hp & HE & HL & -> & ->)|(Hp & HE & HL & H)]].
  - apply emit_spec in Hemit as (_ & _ & _ & HT & _ & _).
    assert (∀ line, (parseLine c line).1 = [] →
              Forall (fun ev => ¬ concerns line ev) (map Wrote (chunk msg)))
      as HW.
    { intros line _. destruct msg; repeat constructor; by intros []. }
    destruct Hsel as [cmd args fn msg cmderr Hp Hne _ _
                     |cmd args msg cmderr Hp Hne _ _
                     |f msg cmderr Hp _ _]; unfold calling in HT;
      rewrite ?Hp in HT; simpl in HT; rewrite <- ?app_assoc in HT;
      eexists; (split; [exact HT|]); intros line Hline; simpl.
    + repeat (constructor; [simpl; try done|]); [|by apply HW].
      intros <-. by rewrite Hp in Hline.
    + repeat (constructor; [simpl; try done|]); [| |by apply HW].
      * intros <-. by rewrite Hp in Hline.
      * intros <-. by rewrite Hp in Hline.
    + constructor; [by intros []|by apply HW].
  - exists [CalledEmptyLine]. split; [done|]. intros line _.
    constructor; [by intros []|constructor].
  - apply IH in H as (evs & HT & Hevs). simpl in HT.
    rewrite <- app_assoc in HT. eexists. split; [exact HT|].
    intros line Hline. constructor; [by intros []|]. by apply Hevs.
Qed.

(** C9.  When the line is not blank and the tokenizer in [Tokens] returns
    for it a list whose first token is the empty string, [one] does with the
    line what it does with the empty line: it calls [EmptyLine] first, and
    when it returns, [LastLine] has the value it had before and nothing that
    was done concerns the line: no assignment of the line to [LastLine], no
    lookup of its command name in the table, no call of [Default] on it.
    With a user supplied [EmptyLine] that returns, the call returns and
    [EmptyLine] and the write of its output are all that happened. *)
Theorem empty_first_token_is_empty_line c line rest fuel :
  TrimSpace line ≠ [] →
  Tokens c (TrimSpace line) = [] :: rest →
  one (S fuel) c line = one (S fuel) c [] ∧
  (∀ c' e, one (S fuel) c line = Ok (c', e) →
     LastLine c' = LastLine c ∧
     ∃ evs, Trace c' = Trace c ++ CalledEmptyLine :: evs ∧
       Forall (fun ev => ¬ concerns line ev) evs) ∧
  (∀ f msg cmderr,
     EmptyLine c = UserEmptyLine f → f tt = Ok (msg, cmderr) →
     ∃ c', one (S fuel) c line = Ok (c', returned (Out c) msg cmderr) ∧
       LastLine c' = LastLine c ∧
       Trace c' = Trace c ++ CalledEmptyLine :: map Wrote (chunk msg)).
Proof.
  intros Htrim Htok.
  assert (parseLine c line = ([], rest)) as Hp.
  { unfold parseLine. destruct (TrimSpace line); [done|]. by rewrite Htok. }
  assert ((parseLine c line).1 = []) as Hcmd by by rewrite Hp.
  split; [|split].
  - rewrite !one_unfold, Hp. done.
  - intros c' e H. split.
    + apply one_Ok_facts in H as (_ & _ & HL & _).
      by rewrite decide_True in HL.
    + pose proof (one_trace_other_lines _ _ _ _ _ H) as (evs & HT & Hevs).
      specialize (Hevs line Hcmd).
      apply one_inv in H as [(ev & msg & cmderr & Hsel & Hemit)
                            |[(_ & _ & _ & -> & ->)|(_ & _ & _ & H)]].
      * apply emit_spec in Hemit as (_ & _ & _ & HT' & _ & _).
        destruct Hsel as [cmd args fn msg cmderr Hp' Hne _ _
                         |cmd args msg cmderr Hp' Hne _ _
                         |f msg cmderr _ _ _].
        -- rewrite Hp in Hp'. by injection Hp' as <- <-.
        -- rewrite Hp in Hp'. by injection Hp' as <- <-.
        -- simpl in HT'. rewrite <- app_assoc in HT'.
           eexists. split; [exact HT'|].
           destruct msg; repeat constructor; by intros [].
      * exists []. split; [done|constructor].
      * apply one_trace_other_lines in H as (evs' & HT' & Hevs').
        simpl in HT'. rewrite <- app_assoc in HT'.
        eexists. split; [exact HT'|]. by apply Hevs'.
  - intros f msg cmderr HE Hf.
    assert (selected c line CalledEmptyLine msg cmderr) as Hsel
      by (eapply selected_EmptyLine; eauto).
    destruct (one_selected_spec fuel _ _ _ _ _ Hsel)
      as (c' & Hone & HL & _ & _ & HT & _).
    exists c'. split; [done|]. split; [done|].
    rewrite HT. simpl. by rewrite <- app_assoc.
Qed.

Lemma empty_first_token_is_empty_line_witness :
  let c := set_EmptyLine (set_Tokens (New commands [] Buffer) emptyFirst)
             sayEmpty in
  one 1 c (str "good x") = one 1 c [] ∧
  ∃ c', one 1 c (str "good x") = Ok (c', None) ∧
    LastLine c' = [] ∧
    Trace c' = [CalledEmptyLine; Wrote (str "empty" ++ [nl])] ∧
    ∃ evs, Trace c' = Trace c ++ CalledEmptyLine :: evs ∧
      Forall (fun ev => ¬ concerns (str "good x") ev) evs.
Proof.
  intros c.
  destruct (empty_first_token_is_empty_line c (str "good x") [str "x"] 0)
    as (Hsame & Hany & Huser).
  - discriminate.
  - reflexivity.
  - split; [exact Hsame|].
    destruct (Huser _ (str "empty" ++ [nl]) None eq_refl eq_refl)
      as (c' & Hone & HL & HT).
    exists c'. split; [exact Hone|]. split; [exact HL|]. split; [exact HT|].
    exact (proj2 (Hany c' None Hone)).
Defined.

(** ** The index expression of the default [Default] *)

Lemma default_Default_returns c line :
  (parseLine c line).1 ≠ [] →
  ∃ f fs, Fields line = f :: fs ∧
    default_Default line = Ok (str "unrecognized command: " ++ f ++ [nl], None).
Proof.
  intros H. apply parseLine_cmd_trimmed, Fields_nonempty in H.
  unfold default_Default. destruct (Fields line) as [|f fs]; [done|]. eauto.
Qed.

Lemma one_no_panic fuel c line :
  Default c = default_Default →
  (∀ cmd fn args, Commands c !! cmd = Some fn → fn args ≠ Panic) →
  (∀ f, EmptyLine c = UserEmptyLine f → f tt ≠ Panic) →
  one fuel c line ≠ Panic.
Proof.
  revert c line. induction fuel as [|fuel IH]; intros c line HD Hfn HE; [done|].
  rewrite one_unfold. destruct (parseLine c line) as [cmd args] eqn:Hp.
  destruct cmd as [|r cmd].
  - unfold callEmptyLine. simpl. destruct (EmptyLine c) as [|f] eqn:E.
    + destruct (LastLine c) as [|r l]; [done|].
      specialize (IH (record CalledEmptyLine c) (r :: l) HD Hfn).
      destruct (one fuel _ _) as [[c' e]| |]; simpl; [done| |done].
      exfalso. apply IH; [|done]. intros f. simpl. by rewrite E.
    + specialize (HE f eq_refl). by destruct (f tt) as [[msg e]| |].
  - destruct (lookupCmd c (r :: cmd)) as [fn|] eqn:El.
    + specialize (Hfn _ _ args El). by destruct (fn args) as [[msg e]| |].
    + destruct (default_Default_returns c line) as (f & fs & _ & Hd);
        [by rewrite Hp|]. by rewrite HD, Hd.
Qed.

(** C10.  In the [Default] that [New] installs, the index
    [strings.Fields(line)[0]] is in range each time [one] calls it: [one]
    does so only on a line for which [parseLine] produced a command name,
    the trimmed line is then not empty, and the raw line then has a first
    field.  So, whatever the tokenizer, a call of [one] never panics unless
    a callback supplied by the user does. *)
Theorem default_Default_index_in_range c line fuel :
  Default c = default_Default →
  (∀ cmd fn args, Commands c !! cmd = Some fn → fn args ≠ Panic) →
  (∀ f, EmptyLine c = UserEmptyLine f → f tt ≠ Panic) →
  ((parseLine c line).1 ≠ [] →
     TrimSpace line ≠ [] ∧
     ∃ f fs, Fields line = f :: fs ∧
       Default c line
         = Ok (str "unrecognized command: " ++ f ++ [nl], None)) ∧
  one fuel c line ≠ Panic.
Proof.
  intros HD Hfn HE. split; [|by apply one_no_panic].
  intros Hp. split; [by apply (parseLine_cmd_trimmed c)|].
  rewrite HD. by apply (default_Default_returns c).
Qed.

Lemma commands_no_panic cmd fn args :
  commands !! cmd = Some fn → fn args ≠ Panic.
Proof.
  unfold commands. intros H.
  apply lookup_insert_Some in H as [[_ <-]|[_ H]]; [done|].
  apply lookup_insert_Some in H as [[_ <-]|[_ H]]; [done|].
  by rewrite lookup_empty in H.
Qed.

Lemma default_Default_index_in_range_witness :
  let c := set_Tokens (New commands [] Buffer) (fun _ => [str "zzz"]) in
  (TrimSpace (str " hello ") ≠ [] ∧
   ∃ f fs, Fields (str " hello ") = f :: fs ∧
     Default c (str " hello ")
       = Ok (str "unrecognized command: " ++ f ++ [nl], None)) ∧
  one 1 c (str " hello ") ≠ Panic.
Proof.
  intros c.
  destruct (default_Default_index_in_range c (str " hello ") 1)
    as [Hidx Hone].
  - reflexivity.
  - apply commands_no_panic.
  - intros f. discriminate.
  - split; [|exact Hone]. apply Hidx. discriminate.
Defined.

(** ** Calls that return *)

Lemma well_behaved_callback c line cmd args :
  well_behaved c → parseLine c line = (cmd, args) → cmd ≠ [] →
  ∃ msg cmderr, callback c line cmd args = Ok (msg, cmderr).
Proof.
  intros (Hfn & HD & _) Hp Hne. unfold callback.
  destruct (lookupCmd c cmd) as [fn|] eqn:E.
  - destruct (Hfn _ _ args E) as [[msg e] ->]. eauto.
  - destruct (HD line) as [[msg e] ->]; [by rewrite Hp|]. eauto.
Qed.

(** With two units of fuel or more, [one] returns in a well behaved
    configuration, and leaves a well behaved configuration. *)
Lemma one_total fuel c line :
  well_behaved c →
  ∃ c' e, one (S (S fuel)) c line = Ok (c', e) ∧ well_behaved c'.
Proof.
  intros Hwb.
  assert (∀ c' e n, one n c line = Ok (c', e) → well_behaved c') as Hkeep.
  { intros c' e n H. apply one_Ok_facts in H as (HC & _ & HL & _).
    pose proof (parseLine_same_config _ _ (LastLine c') HC) as Hp'.
    destruct Hwb as (Hfn & HD & HE).
    destruct HC as (_ & Hcmds & HDef & HEmpty & HTok & _).
    unfold well_behaved. rewrite Hcmds, HDef, HEmpty.
    split; [done|]. split.
    - intros l Hl. apply HD. unfold parseLine in *. by rewrite <- HTok.
    - destruct (EmptyLine c); [|done]. rewrite Hp', HL.
      destruct (decide _) as [Hcmd|Hcmd]; [by rewrite HL in Hp'|by right]. }
  destruct (parseLine c line) as [cmd args] eqn:Hp.
  destruct (decide (cmd = [])) as [->|Hne].
  - destruct Hwb as (Hfn & HD & HE).
    destruct (EmptyLine c) as [|f] eqn:E.
    + destruct (decide (LastLine c = [])) as [HL|HL].
      * rewrite one_idle by (by rewrite ?Hp). eexists _, _. split; [done|].
        apply (Hkeep _ None 1%nat). by rewrite one_idle by (by rewrite ?Hp).
      * destruct HE as [HE|HE]; [done|].
        destruct (parseLine c (LastLine c)) as [cmd' args'] eqn:Hp'.
        destruct (well_behaved_callback (record CalledEmptyLine c)
                    (LastLine c) cmd' args') as (msg & cmderr & Hcb); try done.
        { unfold well_behaved. simpl. rewrite E. split; [done|].
          split; [done|]. right.
          change (parseLine (record CalledEmptyLine c) (LastLine c))
            with (parseLine c (LastLine c)). by rewrite Hp'. }
        pose proof (selected_callback (record CalledEmptyLine c) _ _ _ _ _
                      Hp' HE Hcb) as Hsel.
        assert (one (S (S fuel)) c line
                = Ok (emit (calling (record CalledEmptyLine c) (LastLine c)
                        (callbackEvent (record CalledEmptyLine c) (LastLine c)
                           cmd' args')) msg cmderr)) as Hone.
        { rewrite one_repeat by (by rewrite ?Hp).
          by rewrite (one_selected _ _ _ _ _ _ Hsel). }
        destruct (emit _ _ _) as [c' e] eqn:Hemit. eexists _, _.
        split; [done|]. by eapply Hkeep.
    + destruct HE as [[msg cmderr] Hf].
      assert (selected c line CalledEmptyLine msg cmderr) as Hsel
        by (eapply selected_EmptyLine; eauto; by rewrite Hp).
      pose proof (one_selected (S fuel) _ _ _ _ _ Hsel) as Hone.
      destruct (emit _ _ _) as [c' e] eqn:Hemit. eexists _, _.
      split; [done|]. by eapply Hkeep.
  - destruct (well_behaved_callback c line cmd args) as (msg & cmderr & Hcb);
      try done.
    pose proof (selected_callback _ _ _ _ _ _ Hp Hne Hcb) as Hsel.
    pose proof (one_selected (S fuel) _ _ _ _ _ Hsel) as Hone.
    destruct (emit _ _ _) as [c' e] eqn:Hemit. eexists _, _.
    split; [done|]. by eapply Hkeep.
Qed.

(** The interpreter that [New] returns is well behaved when the handlers of
    its table return; so is it with another tokenizer. *)
Lemma well_behaved_fresh c :
  (∀ cmd fn args, Commands c !! cmd = Some fn → ∃ r, fn args = Ok r) →
  Default c = default_Default → EmptyLine c = RepeatLastLine →
  LastLine c = [] →
  well_behaved c.
Proof.
  intros Hfn HD HE HL. unfold well_behaved. rewrite HE, HD.
  split; [done|]. split; [|by left].
  intros line Hl. destruct (default_Default_returns c line Hl)
    as (f & fs & _ & ->). eauto.
Qed.

Lemma commands_return cmd fn args :
  commands !! cmd = Some fn → ∃ r, fn args = Ok r.
Proof.
  unfold commands. intros H.
  apply lookup_insert_Some in H as [[_ <-]|[_ H]]; [by eexists|].
  apply lookup_insert_Some in H as [[_ <-]|[_ H]]; [by eexists|].
  by rewrite lookup_empty in H.
Qed.

Lemma processes_total c lines :
  well_behaved c → ∃ c', processes c lines c'.
Proof.
  revert c. induction lines as [|line lines IH]; intros c Hwb.
  - exists c. constructor.
  - destruct (one_total 0 c line Hwb) as (c1 & e & Hone & Hwb1).
    destruct (IH c1 Hwb1) as [c' H]. exists c'. econstructor; eauto.
Qed.

Lemma LastLine_is_last_command_line_witness :
  let c := set_Tokens (New commands [] Buffer) hashTokens in
  ∃ c', processes c [str "good x"; str "#note"; str "  "] c' ∧
    LastLine c' = lastCommandLine c (LastLine c)
                    [str "good x"; str "#note"; str "  "] ∧
    LastLine c' = str "good x".
Proof.
  intros c.
  destruct (processes_total c [str "good x"; str "#note"; str "  "])
    as [c' H].
  { apply well_behaved_fresh; [apply commands_return|reflexivity..]. }
  exists c'. split; [exact H|].
  rewrite (LastLine_is_last_command_line _ _ _ H). split; reflexivity.
Defined.

(** ** The order of prompts and outputs in [Loop] *)

Lemma well_behaved_same_config c c' :
  same_config c c' → LastLine c' = LastLine c →
  well_behaved c → well_behaved c'.
Proof.
  intros HC HL (Hfn & HD & HE).
  pose proof (parseLine_same_config _ _ (LastLine c) HC) as Hp.
  pose proof (fun l => parseLine_same_config c c' l HC) as Hp'.
  destruct HC as (_ & Hcmds & HDef & HEmpty & HTok & _).
  unfold well_behaved. rewrite Hcmds, HDef, HEmpty, HL, Hp.
  split; [done|]. split; [|done]. intros l Hl. apply HD.
  by rewrite <- Hp'.
Qed.

Lemma Loop_dialogue lines tail c :
  In c = feed lines ++ tail → Forall (fun l => nl ∉ l) lines → nl ∉ tail →
  accepting (Out c) → well_behaved c →
  ∃ t c' e,
    dialogue (Prompt c) tail c lines t c' e ∧
    written (Out c') = written (Out c) ++ t ∧
    ∀ fuel, (length lines + 3 ≤ fuel)%nat → Loop fuel c = Ok (c', e).
Proof.
  intros HI Hnl Htail. revert c HI.
  induction Hnl as [|l ls Hl Hls IH]; intros c HI Hw Hwb.
  - exists [Prompt c], (prompted c []), EOF. split; [by constructor|].
    split; [done|]. intros [|fuel] Hfuel; [simpl in Hfuel; lia|].
    apply (Loop_read_error _ _ tail); [done|]. rewrite HI.
    by apply ReadBytes_eof.
  - assert (ReadBytes nl (In c) = (l ++ [nl], None, feed ls ++ tail))
      as Hread.
    { rewrite HI. simpl. rewrite <- app_assoc. by apply ReadBytes_line. }
    destruct (prompted_spec c (feed ls ++ tail))
      as (HC1 & HL1 & HI1 & _ & HW1).
    set (c1 := prompted c (feed ls ++ tail)) in *.
    pose proof (well_behaved_same_config _ _ HC1 HL1 Hwb) as Hwb1.
    destruct (one_total 0 c1 (l ++ [nl]) Hwb1) as (c2 & e2 & Hone & Hwb2).
    pose proof (one_Ok_facts _ _ _ _ _ Hone) as (HC2 & HI2 & _ & o & HW2 & _).
    destruct e2 as [e|].
    + exists (Prompt c :: o), c2, (Some e).
      split; [by eapply dialogue_error|]. split.
      * rewrite HW2, HW1, <- app_assoc. done.
      * intros [|fuel] Hfuel; [simpl in Hfuel; lia|].
        rewrite (Loop_line _ _ _ _ (Hw _ _) Hread). fold c1.
        rewrite (one_mono _ fuel _ _ _ Hone) by (simpl in Hfuel; lia). done.
    + pose proof (same_config_trans _ _ _ HC1 HC2) as HC.
      assert (In c2 = feed ls ++ tail) as HIn2 by by rewrite HI2.
      assert (accepting (Out c2)) as Hw2.
      { intros hist q. destruct HC as (_ & _ & _ & _ & _ & ->). apply Hw. }
      destruct (IH c2 HIn2 Hw2 Hwb2) as (t & c' & e & Hd & HW & HLoop).
      assert (Prompt c2 = Prompt c) as HP by by destruct HC.
      rewrite HP in Hd.
      exists (Prompt c :: o ++ t), c', e.
      split; [by eapply dialogue_next|]. split.
      * rewrite HW, HW2, HW1, <- !app_assoc. done.
      * intros [|fuel] Hfuel; [simpl in Hfuel; lia|].
        rewrite (Loop_line _ _ _ _ (Hw _ _) Hread). fold c1.
        rewrite (one_mono _ fuel _ _ _ Hone) by (simpl in Hfuel; lia).
        simpl. apply HLoop. simpl in Hfuel. lia.
Qed.

Lemma dialogue_ends_with_error p tail c lines t c' e :
  dialogue p tail c lines t c' e → e ≠ None.
Proof. induction 1; done. Qed.

Lemma same_config_sym c c' : same_config c c' → same_config c' c.
Proof. intros (?&?&?&?&?&?). by repeat split. Qed.

Lemma answer_same_config c c' last line msg err last' :
  same_config c c' → answer c last line msg err last' →
  answer c' last line msg err last'.
Proof.
  intros HC H.
  pose proof (fun l => parseLine_same_config c c' l HC) as Hp.
  assert (EmptyLine c' = EmptyLine c) as HE by by destruct HC as (_&_&_&?&_).
  destruct H as [ev msg cmderr Hcmd Hsel|msg cmderr Hsel| |ev msg cmderr
                 Hcmd HEmpty Hlast Hsel].
  - eapply answer_command; [by rewrite Hp|by eapply selected_same_config].
  - eapply answer_EmptyLine. by eapply selected_same_config.
  - eapply answer_nothing; [by rewrite Hp|by rewrite HE|done].
  - eapply answer_repeat; [by rewrite Hp|by rewrite HE|by rewrite Hp
                          |by eapply selected_same_config].
Qed.

(** In a well behaved configuration whose writer accepts what it is given,
    [one] writes the output that the callbacks yield for the line, returns
    their error, and stores the line they say. *)
Lemma one_answer fuel c line :
  well_behaved c → accepting (Out c) →
  ∃ msg err c',
    answer c (LastLine c) line msg err (LastLine c') ∧
    one (S (S fuel)) c line = Ok (c', err) ∧
    written (Out c') = written (Out c) ++ chunk msg.
Proof.
  intros Hwb Hw.
  destruct (parseLine c line) as [cmd args] eqn:Hp.
  destruct (decide (cmd = [])) as [->|Hne].
  - assert ((parseLine c line).1 = []) as Hcmd by by rewrite Hp.
    destruct (EmptyLine c) as [|f] eqn:HE.
    + destruct (decide (LastLine c = [])) as [HL|HL].
      * exists [], None, (record CalledEmptyLine c).
        split; [by apply answer_nothing|]. split; [by apply one_idle|].
        simpl. by rewrite app_nil_r.
      * pose proof Hwb as (_ & _ & HLast). rewrite HE in HLast.
        destruct HLast as [HLast|HLast]; [done|].
        destruct (parseLine c (LastLine c)) as [cmd' args'] eqn:Hp'.
        simpl in HLast.
        destruct (well_behaved_callback c (LastLine c) cmd' args' Hwb Hp' HLast)
          as (msg & cmderr & Hcb).
        pose proof (selected_callback _ _ _ _ _ _ Hp' HLast Hcb) as Hsel.
        set (c1 := record CalledEmptyLine c).
        assert (same_config c c1) as HC1 by done.
        apply (selected_same_config _ _ _ _ _ _ HC1) in Hsel as Hsel1.
        destruct (one_selected_spec fuel _ _ _ _ _ Hsel1)
          as (c' & Hone & HL' & _ & _ & _ & HW).
        rewrite returned_accepting in Hone by done.
        assert (LastLine c' = LastLine c) as HLc'.
        { rewrite HL'. destruct (calling_spec c1 (LastLine c)
            (callbackEvent c (LastLine c) cmd' args')) as (_ & _ & _ & ->).
          unfold callbackEvent. by destruct (lookupCmd c cmd'). }
        exists msg, cmderr, c'. rewrite HLc'. split; [|split; [|done]].
        -- eapply answer_repeat; eauto. by rewrite Hp'.
        -- by rewrite one_repeat.
    + pose proof Hwb as (_ & _ & HUser). rewrite HE in HUser.
      destruct HUser as [[msg cmderr] Hf].
      assert (selected c line CalledEmptyLine msg cmderr) as Hsel
        by (eapply selected_EmptyLine; eauto).
      destruct (one_selected_spec (S fuel) _ _ _ _ _ Hsel)
        as (c' & Hone & HL' & _ & _ & _ & HW).
      rewrite returned_accepting in Hone by done.
      exists msg, cmderr, c'. rewrite HL'. simpl.
      split; [by apply answer_EmptyLine|done].
  - destruct (well_behaved_callback c line cmd args Hwb Hp Hne)
      as (msg & cmderr & Hcb).
    pose proof (selected_callback _ _ _ _ _ _ Hp Hne Hcb) as Hsel.
    destruct (one_selected_spec (S fuel) _ _ _ _ _ Hsel)
      as (c' & Hone & HL' & _ & _ & _ & HW).
    rewrite returned_accepting in Hone by done.
    assert (LastLine c' = line) as HLc'.
    { rewrite HL'. destruct (calling_spec c line
        (callbackEvent c line cmd args)) as (_ & _ & _ & ->).
      unfold callbackEvent. by destruct (lookupCmd c cmd). }
    exists msg, cmderr, c'. rewrite HLc'.
    split; [|done]. eapply answer_command; [by rewrite Hp|exact Hsel].
Qed.

Lemma Loop_session lines tail c0 c :
  same_config c0 c →
  In c = feed lines ++ tail → Forall (fun l => nl ∉ l) lines → nl ∉ tail →
  accepting (Out c) → well_behaved c →
  ∃ t c' e,
    session c0 (LastLine c) lines t e ∧
    written (Out c') = written (Out c) ++ t ∧
    ∀ fuel, (length lines + 3 ≤ fuel)%nat → Loop fuel c = Ok (c', e).
Proof.
  intros HC0 HI Hnl Htail. revert c HC0 HI.
  induction Hnl as [|l ls Hl Hls IH]; intros c HC0 HI Hw Hwb.
  - assert (Prompt c = Prompt c0) as HP by by destruct HC0.
    exists [Prompt c0], (prompted c []), EOF. split; [constructor|].
    split; [by rewrite <- HP|]. intros [|fuel] Hfuel; [simpl in Hfuel; lia|].
    apply (Loop_read_error _ _ tail); [done|]. rewrite HI.
    by apply ReadBytes_eof.
  - assert (Prompt c = Prompt c0) as HP by by destruct HC0.
    assert (ReadBytes nl (In c) = (l ++ [nl], None, feed ls ++ tail))
      as Hread.
    { rewrite HI. simpl. rewrite <- app_assoc. by apply ReadBytes_line. }
    destruct (prompted_spec c (feed ls ++ tail))
      as (HC1 & HL1 & HI1 & _ & HW1).
    set (c1 := prompted c (feed ls ++ tail)) in *.
    pose proof (well_behaved_same_config _ _ HC1 HL1 Hwb) as Hwb1.
    assert (accepting (Out c1)) as Hw1.
    { intros hist q. destruct HC1 as (_ & _ & _ & _ & _ & ->). apply Hw. }
    destruct (one_answer 0 c1 (l ++ [nl]) Hwb1 Hw1)
      as (msg & e2 & c2 & Hans & Hone & HW2).
    rewrite HL1 in Hans.
    pose proof (same_config_trans _ _ _ HC0 HC1) as HC01.
    apply (answer_same_config _ c0) in Hans; [|by apply same_config_sym].
    pose proof (one_Ok_facts _ _ _ _ _ Hone) as (HC2 & HI2 & _).
    destruct e2 as [e|].
    + exists (Prompt c0 :: chunk msg), c2, (Some e).
      split; [by eapply session_error|]. split.
      * rewrite HW2, HW1, HP, <- app_assoc. done.
      * intros [|fuel] Hfuel; [simpl in Hfuel; lia|].
        rewrite (Loop_line _ _ _ _ (Hw _ _) Hread). fold c1.
        rewrite (one_mono _ fuel _ _ _ Hone) by (simpl in Hfuel; lia). done.
    + assert (In c2 = feed ls ++ tail) as HIn2 by by rewrite HI2.
      assert (accepting (Out c2)) as Hw2.
      { intros hist q. destruct HC2 as (_ & _ & _ & _ & _ & ->). apply Hw1. }
      assert (well_behaved c2) as Hwb2.
      { destruct (one_total 0 c1 (l ++ [nl]) Hwb1) as (c2' & e' & Hone' & H).
        rewrite Hone in Hone'. by injection Hone' as <- <-. }
      destruct (IH c2 (same_config_trans _ _ _ HC01 HC2) HIn2 Hw2 Hwb2)
        as (t & c' & e & Hs & HW & HLoop).
      exists (Prompt c0 :: chunk msg ++ t), c', e.
      split; [by eapply session_next|]. split.
      * rewrite HW, HW2, HW1, HP, <- !app_assoc. done.
      * intros [|fuel] Hfuel; [simpl in Hfuel; lia|].
        rewrite (Loop_line _ _ _ _ (Hw _ _) Hread). fold c1.
        rewrite (one_mono _ fuel _ _ _ Hone) by (simpl in Hfuel; lia).
        simpl. apply HLoop. simpl in Hfuel. lia.
Qed.

Lemma session_ends_with_error c last lines t e :
  session c last lines t e → e ≠ None.
Proof. induction 1; done. Qed.

(** C8.  Let the input of [Loop] hold finitely many lines, each ended by a
    newline (and possibly characters after the last newline), the writer
    accept what it is given and the configuration be well behaved.  Then
    [Loop] returns, with an error, and what the output stream has received
    is, for each line in order, the prompt followed by the output that the
    handler (or [Default], or [EmptyLine]) returned for that line, up to and
    including the first line for which the callback returned an error:
    nothing is written after the output of that line, no further prompt
    either, and [Loop] returns that error.  When no callback returns an
    error, a last prompt follows the output of the last line and [Loop]
    returns the error of the read. *)
Theorem Loop_alternates_prompt_and_output c lines tail :
  In c = feed lines ++ tail →
  Forall (fun l => nl ∉ l) lines → nl ∉ tail →
  accepting (Out c) → well_behaved c →
  ∃ t c' e,
    (∀ fuel, (length lines + 3 ≤ fuel)%nat → Loop fuel c = Ok (c', e)) ∧
    e ≠ None ∧
    written (Out c') = written (Out c) ++ t ∧
    session c (LastLine c) lines t e.
Proof.
  intros HI Hnl Htail Hw Hwb.
  destruct (Loop_session lines tail c c (same_config_refl c) HI Hnl Htail Hw Hwb)
    as (t & c' & e & Hs & HW & HL).
  exists t, c', e. repeat split; try done.
  by eapply session_ends_with_error.
Qed.

Lemma Loop_alternates_prompt_and_output_witness :
  let lines := [str "good a"; []; str "bad"; str "good b"] in
  let c := New commands (feed lines ++ str "good c") Buffer in
  ∃ t c' e,
    Loop 7 c = Ok (c', e) ∧
    e = Some "oops"%string ∧
    t = [str "> "; str "good [a]" ++ [nl];
         str "> "; str "good [a]" ++ [nl];
         str "> "; str "bad" ++ [nl]] ∧
    written (Out c') = written (Out c) ++ t ∧
    session c (LastLine c) lines t e.
Proof.
  intros lines c.
  destruct (Loop_alternates_prompt_and_output c lines (str "good c"))
    as (t & c' & e & HL & He & HW & Hd).
  - reflexivity.
  - repeat constructor; intros H; vm_compute in H;
      repeat (apply elem_of_cons in H as [H|H]; [discriminate H|]);
      by apply elem_of_nil in H.
  - intros H; vm_compute in H;
      repeat (apply elem_of_cons in H as [H|H]; [discriminate H|]);
      by apply elem_of_nil in H.
  - intros hist p. reflexivity.
  - apply well_behaved_fresh; [apply commands_return|reflexivity..].
  - assert (observe (Loop 7 c)
            = Ok ([str "> "; str "good [a]" ++ [nl];
                   str "> "; str "good [a]" ++ [nl];
                   str "> "; str "bad" ++ [nl]], Some "oops"%string)) as Hobs
      by (vm_compute; reflexivity).
    assert (Loop 7 c = Ok (c', e)) as HL7 by (apply HL; simpl; lia).
    rewrite HL7 in Hobs. injection Hobs as Hwr Herr.
    exists t, c', e. split; [exact HL7|]. split; [exact Herr|].
    split; [|split; [exact HW|exact Hd]].
    assert (written (Out c') = t) as Ht by exact HW.
    rewrite <- Ht. exact Hwr.
Defined.

(** [TestLoop], extended with a line that stops the loop: the blank line
    repeats "good a", and "good b" is never read. *)
Example TestLoop :
  observe (Loop 7 (New commands
                     (feed [str "good a"; []; str "bad"; str "good b"])
                     Buffer))
  = Ok ([str "> "; str "good [a]" ++ [nl];
         str "> "; str "good [a]" ++ [nl];
         str "> "; str "bad" ++ [nl]], Some "oops"%string).
Proof. vm_compute. reflexivity. Qed.

(** Without a line that stops it, [Loop] ends on the read that finds the
    input exhausted, after one more prompt; what follows the last newline
    is read and dropped. *)
Example TestLoop_eof :
  observe (Loop 7 (New commands (feed [str "good a"; str "hello"] ++ str "bad")
                     Buffer))
  = Ok ([str "> "; str "good [a]" ++ [nl];
         str "> "; str "unrecognized command: hello" ++ [nl];
         str "> "], EOF).
Proof. vm_compute. reflexivity. Qed.

(** ** Further properties of [parseLine] *)

Lemma Fields_surrounded lead s trail :
  blank lead → blank trail → Fields (lead ++ s ++ trail) = Fields s.
Proof.
  intros Hl Ht. unfold Fields.
  by rewrite fieldsFrom_blank_nil, fieldsFrom_app_blank.
Qed.

Lemma fieldsFrom_joinSpace cur ws :
  cur ≠ [] → Forall word ws →
  fieldsFrom cur (match ws with [] => [] | _ => 32 :: joinSpace ws end)
    = cur :: ws.
Proof.
  intros Hcur Hws. revert cur Hcur.
  induction Hws as [|w ws [Hw Hsolid] Hws IH]; intros cur Hcur.
  - simpl. by destruct cur.
  - change (32 :: joinSpace (w :: ws)) with ([32] ++ joinSpace (w :: ws)).
    rewrite fieldsFrom_blank_cur; [|done|done|by repeat constructor].
    f_equal.
    assert (joinSpace (w :: ws)
            = w ++ match ws with [] => [] | _ => 32 :: joinSpace ws end) as ->.
    { destruct ws; simpl; [by rewrite app_nil_r|done]. }
    rewrite fieldsFrom_solid by done. by apply IH.
Qed.

(** [strings.Fields] undoes [strings.Join] with a single space, on words. *)
Lemma Fields_joinSpace ws : Forall word ws → Fields (joinSpace ws) = ws.
Proof.
  intros Hws. destruct Hws as [|w ws [Hw Hsolid] Hws]; [done|].
  unfold Fields.
  assert (joinSpace (w :: ws)
          = w ++ match ws with [] => [] | _ => 32 :: joinSpace ws end) as ->.
  { destruct ws; simpl; [by rewrite app_nil_r|done]. }
  rewrite fieldsFrom_solid by done. by apply fieldsFrom_joinSpace.
Qed.

(** X9.  With the tokenizer [strings.Fields], [parseLine] returns the empty
    command name exactly for the blank lines, and then no argument; a
    command name and the arguments it returns are words: not empty and free
    of white space. *)
Theorem parseLine_yields_words c line :
  Tokens c = Fields →
  ((parseLine c line).1 = [] ↔ blank line) ∧
  ((parseLine c line).1 = [] → (parseLine c line).2 = []) ∧
  ((parseLine c line).1 ≠ [] → word (parseLine c line).1) ∧
  Forall word (parseLine c line).2.
Proof.
  intros HT. rewrite parseLine_Fields by done.
  pose proof (Fields_words line) as Hw. pose proof (Fields_nil line) as Hn.
  destruct (Fields line) as [|cmd args]; simpl.
  - split; [split; [intros _; by apply Hn|done]|].
    split; [done|]. split; [done|constructor].
  - inversion Hw as [|? ? Hcmd Hargs]; subst.
    destruct Hcmd as [Hne Hsolid]. split.
    + split; [done|]. intros Hb. by apply Hn in Hb.
    + split; [done|]. split; [by split|done].
Qed.

Lemma parseLine_yields_words_witness :
  let c := New commands [] Buffer in
  ((parseLine c (str " good  x ")).1 = [] ↔ blank (str " good  x ")) ∧
  ((parseLine c (str " good  x ")).1 = [] →
     (parseLine c (str " good  x ")).2 = []) ∧
  ((parseLine c (str " good  x ")).1 ≠ [] →
     word (parseLine c (str " good  x ")).1) ∧
  Forall word (parseLine c (str " good  x ")).2.
Proof.
  intros c. apply (parseLine_yields_words c (str " good  x ")). reflexivity.
Defined.

(** X11.  With the tokenizer [strings.Fields], the command name and the
    arguments that [parseLine] returns for a line, joined by single spaces,
    make a line that [parseLine] takes apart into the same command name and
    arguments. *)
Theorem parseLine_joinSpace c line cmd args :
  Tokens c = Fields →
  parseLine c line = (cmd, args) → cmd ≠ [] →
  parseLine c (joinSpace (cmd :: args)) = (cmd, args).
Proof.
  intros HT Hp Hcmd. destruct (parseLine_yields_words c line HT)
    as (_ & _ & Hw & Hargs). rewrite Hp in Hw, Hargs. simpl in Hw, Hargs.
  rewrite parseLine_Fields, Fields_joinSpace by auto. done.
Qed.

Lemma parseLine_joinSpace_witness :
  parseLine (New commands [] Buffer) (joinSpace [str "good"; str "a"; str "b"])
  = (str "good", [str "a"; str "b"]).
Proof.
  apply (parseLine_joinSpace (New commands [] Buffer)
           (9 :: str " good   a" ++ 9 :: str "b" ++ [nl])).
  - reflexivity.
  - vm_compute. reflexivity.
  - discriminate.
Defined.

(** X10.  [parseLine] of the earlier revision returns what the present
    [parseLine] returns with the tokenizer [strings.Fields]. *)
Theorem Earlier_parseLine_agrees c line :
  Tokens c = Fields → Earlier.parseLine line = parseLine c line.
Proof.
  intros HT. unfold Earlier.parseLine, parseLine. rewrite HT.
  destruct (TrimSpace line); [done|].
  destruct (Fields _) as [|f fields]; [done|]. f_equal.
  assert (∀ acc, foldl (fun args f => args ++ [f]) acc fields = acc ++ fields)
    as H.
  { induction fields as [|x fields IH]; intros acc; simpl.
    - by rewrite app_nil_r.
    - by rewrite IH, <- app_assoc. }
  apply H.
Qed.

Lemma Earlier_parseLine_agrees_witness :
  Earlier.parseLine (str "good arg1 arg2")
  = parseLine (New commands [] Buffer) (str "good arg1 arg2").
Proof.
  apply (Earlier_parseLine_agrees (New commands [] Buffer)). reflexivity.
Defined.

(** ** Further properties of the default [Default] *)

Lemma fieldsFrom_first cur s f fs :
  cur ≠ [] → fieldsFrom cur s = f :: fs →
  ∃ w t, f = cur ++ w ∧ s = w ++ t ∧
    (t = [] ∨ ∃ r t', t = r :: t' ∧ IsSpace r = true).
Proof.
  revert cur. induction s as [|r s IH]; intros cur Hcur; simpl.
  - destruct cur; [done|]. intros [= <- <-]. exists [], [].
    rewrite app_nil_r. auto.
  - destruct (IsSpace r) eqn:Hr.
    + destruct cur; [done|]. intros [= <- <-]. exists [], (r :: s).
      rewrite app_nil_r. split; [done|]. split; [done|]. right. eauto.
    + intros H. apply IH in H as (w & t & -> & -> & Ht); [|by destruct cur].
      exists (r :: w), t. by rewrite <- app_assoc.
Qed.

(** The first field of a string follows its leading white space and ends at
    the next white space or at the end of the string. *)
Lemma first_field_position s f fs :
  Fields s = f :: fs →
  ∃ lead rest, blank lead ∧ s = lead ++ f ++ rest ∧
    (rest = [] ∨ ∃ r rest', rest = r :: rest' ∧ IsSpace r = true).
Proof.
  unfold Fields. destruct (TrimLeft_split s) as (b & Hb & Hs).
  rewrite Hs at 1. rewrite fieldsFrom_blank_nil by done.
  destruct (TrimLeft s) as [|r t] eqn:E; [done|].
  apply TrimLeft_head in E as Hr. simpl. rewrite Hr. simpl. intros H.
  apply fieldsFrom_first in H as (w & t' & -> & -> & Ht); [|done].
  exists b, t'. by rewrite Hs.
Qed.

(** X8.  Called on its own, the [Default] that [New] installs panics exactly
    on the blank lines, the empty line among them; on every other line it
    returns nil and the message "unrecognized command: f\n", where [f] is
    the first field of the line: the word that follows the leading white
    space. *)
Theorem default_Default_panics_on_blank line :
  (default_Default line = Panic ↔ blank line) ∧
  (¬ blank line →
   ∃ f fs lead rest,
     Fields line = f :: fs ∧
     word f ∧ blank lead ∧ line = lead ++ f ++ rest ∧
     (rest = [] ∨ ∃ r rest', rest = r :: rest' ∧ IsSpace r = true) ∧
     default_Default line
       = Ok (str "unrecognized command: " ++ f ++ [nl], None)).
Proof.
  unfold default_Default. pose proof (Fields_nil line) as Hn.
  pose proof (Fields_words line) as Hw.
  destruct (Fields line) as [|f fs] eqn:E.
  - split; [split; [intros _; by apply Hn|done]|].
    intros Hb. exfalso. apply Hb. by apply Hn.
  - split; [split; [done|intros Hb; by apply Hn in Hb]|].
    intros _. inversion Hw as [|? ? Hf _]; subst.
    destruct (first_field_position _ _ _ E) as (lead & rest & Hlead & -> & Hrest).
    by exists f, fs, lead, rest.
Qed.

(** ** Further properties of [one] *)

Lemma observe_emit c1 c2 msg cmderr :
  Out c1 = Out c2 →
  observe (Ok (emit c1 msg cmderr)) = observe (Ok (emit c2 msg cmderr)).
Proof.
  intros HO. unfold observe, emit, writeOut, Write. destruct msg; simpl.
  - by rewrite HO.
  - rewrite HO. by destruct (failure (Out c2) _ _).
Qed.

(** X1.  With the tokenizer and the [Default] that [New] installs, white
    space before and after a line changes neither what [one] writes nor the
    error it returns (it changes what [LastLine] receives). *)
Theorem surrounding_space_ignored c line lead trail fuel :
  Tokens c = Fields → Default c = default_Default →
  blank lead → blank trail →
  observe (one fuel c (lead ++ line ++ trail)) = observe (one fuel c line).
Proof.
  intros HT HD Hlead Htrail. destruct fuel as [|fuel]; [done|].
  pose proof (Fields_surrounded lead line trail Hlead Htrail) as HF.
  rewrite !one_unfold, !parseLine_Fields, HF by done.
  pose proof (Fields_words line) as Hw.
  destruct (Fields line) as [|cmd args] eqn:E; [done|].
  inversion Hw as [|? ? [Hcmd _] _]; subst.
  destruct cmd as [|r cmd]; [done|].
  destruct (lookupCmd c (r :: cmd)) as [fn|].
  - destruct (fn args) as [[msg e]| |]; simpl; [|done..].
    by apply observe_emit.
  - assert (default_Default (lead ++ line ++ trail) = default_Default line)
      as HDl by (unfold default_Default; by rewrite HF, E).
    rewrite HD, HDl.
    destruct (default_Default line) as [[msg e]| |]; simpl; [|done..].
    by apply observe_emit.
Qed.

Lemma surrounding_space_ignored_witness :
  observe (one 1 (New commands [] Buffer) (str "  " ++ str "good x" ++ [9; nl]))
  = observe (one 1 (New commands [] Buffer) (str "good x")).
Proof.
  apply (surrounding_space_ignored (New commands [] Buffer) (str "good x")
           (str "  ") [9; nl] 1).
  - reflexivity.
  - reflexivity.
  - repeat constructor.
  - repeat constructor.
Defined.

(** X2.  With the [EmptyLine] that [New] installs and no line stored in
    [LastLine], a blank line makes [one] return nil without writing
    anything and without consulting the tokenizer, the table or [Default];
    [LastLine] stays empty. *)
Theorem blank_line_without_stored_line c line fuel :
  blank line → EmptyLine c = RepeatLastLine → LastLine c = [] →
  ∃ c', one (S fuel) c line = Ok (c', None) ∧
    written (Out c') = written (Out c) ∧
    LastLine c' = [] ∧
    Trace c' = Trace c ++ [CalledEmptyLine].
Proof.
  intros Hb HE HL. exists (record CalledEmptyLine c).
  rewrite one_idle; [done| |done|done].
  unfold parseLine. apply TrimSpace_nil in Hb. by rewrite Hb.
Qed.

Lemma blank_line_without_stored_line_witness :
  ∃ c', one 1 (New commands [] Buffer) [32; 9; nl] = Ok (c', None) ∧
    written (Out c') = [] ∧ LastLine c' = [] ∧
    Trace c' = [CalledEmptyLine].
Proof.
  apply (blank_line_without_stored_line (New commands [] Buffer) [32; 9; nl] 0).
  - repeat constructor.
  - reflexivity.
  - reflexivity.
Defined.

(** X3.  A call of [one] that returns has written at most one string, has
    left the prompt, the table, the callbacks, the tokenizer and the input
    as they were, and has left in [LastLine] either its former value or the
    line it was given. *)
Theorem one_writes_at_most_once fuel c line c' e :
  one fuel c line = Ok (c', e) →
  (∃ o, written (Out c') = written (Out c) ++ o ∧ (length o ≤ 1)%nat) ∧
  same_config c c' ∧ In c' = In c ∧
  (LastLine c' = LastLine c ∨ LastLine c' = line).
Proof.
  intros H. apply one_Ok_facts in H as (HC & HI & HL & Ho).
  split; [done|]. split; [done|]. split; [done|].
  rewrite HL. destruct (decide _); auto.
Qed.

Lemma one_writes_at_most_once_witness :
  let c := New commands (str "rest") Buffer in
  ∃ c', one 1 c (str "bad") = Ok (c', Some "oops"%string) ∧
    (∃ o, written (Out c') = written (Out c) ++ o ∧ (length o ≤ 1)%nat) ∧
    same_config c c' ∧ In c' = In c ∧
    (LastLine c' = LastLine c ∨ LastLine c' = str "bad").
Proof.
  intros c.
  assert (selected c (str "bad") (CalledHandler (str "bad") [])
            (str "bad" ++ [nl]) (Some "oops"%string)) as Hsel.
  { apply (selected_handler _ _ (str "bad") [] bad).
    - vm_compute. reflexivity.
    - discriminate.
    - vm_compute. reflexivity.
    - reflexivity. }
  destruct (one_selected_spec 0 _ _ _ _ _ Hsel) as (c' & Hone & _).
  exists c'. split; [exact Hone|].
  exact (one_writes_at_most_once 1 c (str "bad") c' _ Hone).
Defined.

Lemma ones_total fuel c lines :
  well_behaved c →
  ∃ c', ones (S (S fuel)) c lines = Ok c' ∧ well_behaved c'.
Proof.
  revert c. induction lines as [|line lines IH]; intros c Hwb.
  - by exists c.
  - destruct (one_total fuel c line Hwb) as (c1 & e & Hone & Hwb1).
    destruct (IH c1 Hwb1) as (c' & Hones & Hwb').
    exists c'. split; [|done]. cbn -[one]. rewrite Hone. done.
Qed.

Lemma ones_same_config fuel c lines c' :
  ones fuel c lines = Ok c' → same_config c c'.
Proof.
  revert c. induction lines as [|line lines IH]; intros c; cbn -[one].
  - by intros [= <-].
  - destruct (one fuel c line) as [[c1 e]| |] eqn:Hone; [|done..].
    cbn. intros H. apply one_Ok_facts in Hone as (HC & _).
    eapply same_config_trans; eauto.
Qed.

(** X4.  On the interpreter that [New] returns, with handlers that return,
    every sequence of calls of [one] returns, each within two levels of
    calls: the [EmptyLine] of [New] calls [one] once and that call does not
    call [EmptyLine] again.  The line then stored in [LastLine] is empty or
    has a command name; it is never a blank line. *)
Theorem calls_on_New_return cmds input w lines fuel :
  (∀ cmd fn args, cmds !! cmd = Some fn → ∃ r, fn args = Ok r) →
  ∃ c', ones (S (S fuel)) (New cmds input w) lines = Ok c' ∧
    (LastLine c' = [] ∨ (parseLine c' (LastLine c')).1 ≠ []).
Proof.
  intros Hfn.
  destruct (ones_total fuel (New cmds input w) lines) as (c' & Hones & Hwb).
  { by apply well_behaved_fresh. }
  exists c'. split; [done|].
  apply ones_same_config in Hones as (_ & _ & _ & HE & _).
  destruct Hwb as (_ & _ & H). by rewrite HE in H.
Qed.

Lemma calls_on_New_return_witness :
  ∃ c', ones 2 (New commands [] Buffer)
          [str "good x"; str "  "; str "bad"; []; str "what"] = Ok c' ∧
    (LastLine c' = [] ∨ (parseLine c' (LastLine c')).1 ≠ []).
Proof.
  apply (calls_on_New_return commands [] Buffer
           [str "good x"; str "  "; str "bad"; []; str "what"] 0).
  apply commands_return.
Defined.

(** X5.  The [EmptyLine] of [New] tests the length of [LastLine], not its
    content.  When [LastLine] holds a line that is not empty and for which
    [parseLine] yields no command name (a blank line assigned to the
    exported field, say), a line without a command name makes [one] call
    itself on [LastLine] without end: no amount of fuel lets the call
    return. *)
Theorem blank_LastLine_never_returns c line fuel :
  EmptyLine c = RepeatLastLine →
  LastLine c ≠ [] → (parseLine c (LastLine c)).1 = [] →
  (parseLine c line).1 = [] →
  one fuel c line = OutOfFuel.
Proof.
  revert c line. induction fuel as [|fuel IH]; intros c line HE HL Hp Hline;
    [done|].
  rewrite one_repeat by done. by apply IH.
Qed.

Lemma blank_LastLine_never_returns_witness :
  one 50 (set_LastLine (New commands [] Buffer) (str "  ")) [] = OutOfFuel.
Proof.
  apply (blank_LastLine_never_returns
           (set_LastLine (New commands [] Buffer) (str "  ")) [] 50).
  - reflexivity.
  - discriminate.
  - reflexivity.
  - reflexivity.
Defined.

(** X12.  With the [EmptyLine] of [New], when [LastLine] holds a line whose
    callback (a handler or [Default]) returns [(msg, cmderr)], every line
    without a command name makes [one] run that callback again: [msg] is
    written once more, the error returned is the one the stored line would
    yield, and [LastLine] still holds the stored line, so that the next
    blank line does the same. *)
Theorem blank_line_repeats_stored_line c line ev msg cmderr b fuel :
  EmptyLine c = RepeatLastLine → LastLine c = line →
  selected c line ev msg cmderr →
  (parseLine c b).1 = [] →
  ∃ c', one (S (S fuel)) c b = Ok (c', returned (Out c) msg cmderr) ∧
    written (Out c') = written (Out c) ++ chunk msg ∧
    Trace c' = Trace c ++
      CalledEmptyLine :: AssignedLastLine line
        :: LookedUp (parseLine c line).1 :: ev :: map Wrote (chunk msg) ∧
    EmptyLine c' = RepeatLastLine ∧ LastLine c' = line ∧
    selected c' line ev msg cmderr.
Proof.
  intros HE HL Hsel Hb.
  assert ((parseLine c line).1 ≠ [] ∧ ev ≠ CalledEmptyLine) as [Hcmd Hev].
  { destruct Hsel as [cmd args fn msg cmderr Hp Hne _ _
                     |cmd args msg cmderr Hp Hne _ _
                     |f msg cmderr _ Hf _].
    - by rewrite Hp.
    - by rewrite Hp.
    - by rewrite HE in Hf. }
  assert (line ≠ []) as Hline.
  { intros ->. by apply parseLine_cmd_trimmed in Hcmd. }
  set (c1 := record CalledEmptyLine c).
  assert (same_config c c1) as HC1 by done.
  apply (selected_same_config _ _ _ _ _ _ HC1) in Hsel as Hsel1.
  destruct (one_selected_spec fuel _ _ _ _ _ Hsel1)
    as (c' & Hone & HL' & _ & HC' & HT & HW).
  exists c'. split.
  { rewrite one_repeat by (by rewrite ?HL). by rewrite HL. }
  split; [done|].
  assert (calling c1 line ev = dispatched c1 line (parseLine c line).1 ev)
    as Hcalling by (unfold calling; by destruct ev).
  rewrite Hcalling in *. split.
  { rewrite HT. simpl. by rewrite <- !app_assoc. }
  split; [by destruct HC' as (_ & _ & _ & -> & _ & _)|]. split; [done|].
  apply (selected_same_config c);
    [exact (same_config_trans _ _ _ HC1 HC')|done].
Qed.

Lemma blank_line_repeats_stored_line_witness :
  let c := set_LastLine (New commands [] Buffer) (str "what now") in
  ∃ c', one 2 c [9] = Ok (c', None) ∧
    written (Out c') = [str "unrecognized command: what" ++ [nl]] ∧
    LastLine c' = str "what now".
Proof.
  intros c.
  destruct (blank_line_repeats_stored_line c (str "what now")
              (CalledDefault (str "what now"))
              (str "unrecognized command: what" ++ [nl]) None [9] 0)
    as (c' & Hone & HW & _ & _ & HL & _).
  - reflexivity.
  - reflexivity.
  - apply (selected_Default _ _ (str "what") [str "now"]).
    + vm_compute. reflexivity.
    + discriminate.
    + vm_compute. reflexivity.
    + reflexivity.
  - reflexivity.
  - exists c'. split; [exact Hone|]. split; [exact HW|exact HL].
Defined.

(** ** The example console *)

(** X13.  On the console of the examples, a line made of the word "hello"
    makes [one] write the question, and a line made of "hello" followed by
    words makes it write "Hello, " and these words separated by single
    spaces, whatever white space separated them in the line; in both cases
    [one] returns nil. *)
Theorem console_greets input w lead tail trail fuel :
  accepting w → blank lead → separated tail → blank trail →
  ∃ c',
    one (S fuel) (console input w) (lead ++ str "hello" ++ spaced tail ++ trail)
      = Ok (c', None) ∧
    written (Out c') = written w ++
      [match tail with
       | [] => str "What's your name?" ++ [nl]
       | _ => str "Hello, " ++ joinSpace (map snd tail) ++ [nl]
       end].
Proof.
  intros Hw Hlead Htail Htrail.
  set (line := lead ++ str "hello" ++ spaced tail ++ trail).
  set (out := match tail with
              | [] => str "What's your name?" ++ [nl]
              | _ => str "Hello, " ++ joinSpace (map snd tail) ++ [nl]
              end).
  assert (parseLine (console input w) line = (str "hello", map snd tail))
    as Hp.
  { rewrite parseLine_Fields by done. unfold line.
    rewrite Fields_spaced; try done. split; [done|]. repeat constructor. }
  assert (hello (map snd tail) = Ok (out, None)) as Hh.
  { unfold out, hello. by destruct tail as [|[sep a] tail]. }
  assert (selected (console input w) line
            (CalledHandler (str "hello") (map snd tail)) out None) as Hsel.
  { by apply (selected_handler _ _ _ _ hello). }
  destruct (one_selected_spec fuel _ _ _ _ _ Hsel)
    as (c' & Hone & _ & _ & _ & _ & HW).
  rewrite returned_accepting in Hone by done.
  exists c'. split; [done|]. rewrite HW. simpl. f_equal.
  unfold out. by destruct tail.
Qed.

Lemma console_greets_witness :
  ∃ c',
    one 1 (console [] Buffer)
      ([] ++ str "hello" ++
       spaced [(str "   ", str "Bob"); ([9; 32], str "Smith")] ++ [nl])
      = Ok (c', None) ∧
    written (Out c') = [] ++ [str "Hello, Bob Smith" ++ [nl]].
Proof.
  apply (console_greets [] Buffer []
           [(str "   ", str "Bob"); ([9; 32], str "Smith")] [nl] 0).
  - intros hist p. reflexivity.
  - constructor.
  - repeat constructor; discriminate.
  - repeat constructor.
Defined.

(** ** Further properties of [Loop] *)

(** X6.  [Loop] returns only through one of its three [return err]
    statements: whenever it returns, the error is not nil; and it leaves the
    prompt, the table, the callbacks and the tokenizer as they were. *)
Theorem Loop_returns_an_error fuel c c' e :
  Loop fuel c = Ok (c', e) → e ≠ None ∧ same_config c c'.
Proof.
  revert c. induction fuel as [|fuel IH]; intros c; [done|].
  cbn -[one ReadBytes]. destruct (failure (Out c) _ _) as [w|].
  { by intros [= <- <-]. }
  destruct (ReadBytes nl (In c)) as [[line [r|]] rest].
  { by intros [= <- <-]. }
  match goal with |- context [one fuel ?x line] => set (c1 := x) end.
  assert (same_config c c1) as HC1 by done.
  destruct (one fuel c1 line) as [[c2 [e2|]]| |] eqn:Hone; cbn; [| |done..].
  - intros [= <- <-]. split; [done|].
    apply one_Ok_facts in Hone as (HC2 & _).
    by eapply same_config_trans.
  - intros H. apply IH in H as [He HC]. split; [done|].
    apply one_Ok_facts in Hone as (HC2 & _).
    eapply same_config_trans; [|exact HC].
    by eapply same_config_trans.
Qed.

Lemma Loop_returns_an_error_witness :
  let c := New commands (feed [str "good a"; str "bad"]) Buffer in
  ∃ c' e, Loop 5 c = Ok (c', e) ∧ e ≠ None ∧ same_config c c'.
Proof.
  intros c.
  destruct (Loop_dialogue [str "good a"; str "bad"] [] c)
    as (t & c' & e & _ & _ & HL).
  - reflexivity.
  - repeat constructor; intros H; vm_compute in H;
      repeat (apply elem_of_cons in H as [H|H]; [discriminate H|]);
      by apply elem_of_nil in H.
  - apply not_elem_of_nil.
  - intros hist p. reflexivity.
  - apply well_behaved_fresh; [apply commands_return|reflexivity..].
  - exists c', e. split; [apply HL; simpl; lia|].
    apply (Loop_returns_an_error 5 c c' e). apply HL. simpl. lia.
Defined.

Lemma quiet_same_config c c' :
  same_config c c' → LastLine c' = LastLine c → quiet c → quiet c'.
Proof.
  intros HC HL (Hfn & HD & HE).
  pose proof (parseLine_same_config _ _ (LastLine c) HC) as Hp.
  pose proof (fun l => parseLine_same_config c c' l HC) as Hp'.
  destruct HC as (_ & Hcmds & HDef & HEmpty & HTok & _).
  unfold quiet. rewrite Hcmds, HDef, HEmpty, HL, Hp.
  split; [done|]. split; [|done]. intros l Hl. apply HD.
  by rewrite <- Hp'.
Qed.

Lemma quiet_well_behaved c : quiet c → well_behaved c.
Proof.
  intros (Hfn & HD & HE). split; [|split].
  - intros cmd fn args H. destruct (Hfn _ _ args H) as [msg ->]. eauto.
  - intros line H. destruct (HD _ H) as [msg ->]. eauto.
  - destruct (EmptyLine c); [done|]. destruct HE as [msg ->]. eauto.
Qed.

Lemma one_quiet_keep fuel c line c' e :
  quiet c → one fuel c line = Ok (c', e) → quiet c'.
Proof.
  intros Hq H. apply one_Ok_facts in H as (HC & _ & HL & _).
  pose proof (parseLine_same_config _ _ (LastLine c') HC) as Hp'.
  pose proof (fun l => parseLine_same_config c c' l HC) as Hp.
  destruct Hq as (Hfn & HD & HE).
  destruct HC as (_ & Hcmds & HDef & HEmpty & HTok & _).
  unfold quiet. rewrite Hcmds, HDef, HEmpty.
  split; [done|]. split.
  - intros l Hl. apply HD. by rewrite <- Hp.
  - destruct (EmptyLine c); [|done]. rewrite Hp', HL.
    destruct (decide _) as [Hcmd|Hcmd]; [done|by right].
Qed.

Lemma one_quiet_error fuel c line c' e :
  quiet c → accepting (Out c) → one fuel c line = Ok (c', e) → e = None.
Proof.
  revert c line c' e. induction fuel as [|fuel IH]; intros c line c' e Hq Hw H;
    [done|].
  apply one_inv in H as [(ev & msg & cmderr & Hsel & Hemit)
                        |[(_ & _ & _ & _ & ->)|(_ & _ & _ & H)]]; [|done|].
  - apply emit_spec in Hemit as (_ & _ & _ & _ & _ & ->).
    destruct (calling_spec c line ev) as (_ & _ & -> & _).
    assert (cmderr = None) as ->.
    { destruct Hq as (Hfn & HD & HE).
      destruct Hsel as [cmd args fn msg cmderr Hp Hne Hl Hcall
                       |cmd args msg cmderr Hp Hne _ Hcall
                       |f msg cmderr _ Hf Hcall].
      - destruct (Hfn _ _ args Hl) as [msg' Hmsg]. congruence.
      - destruct (HD line) as [msg' Hmsg]; [by rewrite Hp|]. congruence.
      - rewrite Hf in HE. destruct HE as [msg' Hmsg]. congruence. }
    rewrite Hw. by destruct (chunk msg).
  - apply (IH (record CalledEmptyLine c) (LastLine c) c' e); [|exact Hw|exact H].
    by apply (quiet_same_config c).
Qed.

Lemma dialogue_quiet p tail c lines t c' e :
  dialogue p tail c lines t c' e →
  quiet c → accepting (Out c) → e = EOF ∧ In c' = [] ∧ quiet c'.
Proof.
  induction 1 as [c HP|c l ls fuel c' e o HP Hone HW
                 |c l ls fuel c' o t c'' e HP Hone HW Hd IH]; intros Hq Hw.
  - split; [done|]. split; [done|]. by apply (quiet_same_config c).
  - exfalso.
    assert (Some e = None) as He; [|done].
    eapply one_quiet_error; [| |exact Hone].
    + by apply (quiet_same_config c).
    + exact Hw.
  - apply IH.
    + eapply one_quiet_keep; [|exact Hone]. by apply (quiet_same_config c).
    + apply one_Ok_facts in Hone as ((_ & _ & _ & _ & _ & Hf) & _).
      intros hist q. rewrite Hf. apply Hw.
Qed.

(** X7.  When no callback returns an error (the handlers, [Default] and a
    user supplied [EmptyLine] all return nil) and the writer accepts what it
    is given, [Loop] stops only at the end of the input: on an input of
    finitely many lines it returns [io.EOF], with the whole input
    consumed. *)
Theorem Loop_ends_at_end_of_input c lines tail :
  quiet c → accepting (Out c) →
  In c = feed lines ++ tail →
  Forall (fun l => nl ∉ l) lines → nl ∉ tail →
  ∃ c',
    (∀ fuel, (length lines + 3 ≤ fuel)%nat → Loop fuel c = Ok (c', EOF)) ∧
    In c' = [] ∧ quiet c'.
Proof.
  intros Hq Hw HI Hnl Htail.
  destruct (Loop_dialogue lines tail c HI Hnl Htail Hw
              (quiet_well_behaved c Hq)) as (t & c' & e & Hd & _ & HL).
  destruct (dialogue_quiet _ _ _ _ _ _ _ Hd Hq Hw) as (-> & HIn & Hq').
  by exists c'.
Qed.

Lemma console_quiet input w : quiet (console input w).
Proof.
  split; [|split].
  - intros cmd fn args H. unfold console in H. simpl in H.
    apply lookup_singleton_Some in H as [_ <-].
    unfold hello. destruct args; eauto.
  - intros line H. destruct (default_Default_returns _ _ H)
      as (f & fs & _ & Hd). simpl. rewrite Hd. eauto.
  - by left.
Qed.

Lemma Loop_ends_at_end_of_input_witness :
  let lines := [str "hello"; str "hello Bob"; []; str "bye"] in
  let c := console (feed lines ++ str "hel") Buffer in
  ∃ c', Loop 7 c = Ok (c', EOF) ∧ In c' = [] ∧ quiet c'.
Proof.
  intros lines c.
  destruct (Loop_ends_at_end_of_input c lines (str "hel"))
    as (c' & HL & HI & Hq).
  - apply console_quiet.
  - intros hist p. reflexivity.
  - reflexivity.
  - repeat constructor; intros H; vm_compute in H;
      repeat (apply elem_of_cons in H as [H|H]; [discriminate H|]);
      by apply elem_of_nil in H.
  - intros H; vm_compute in H;
      repeat (apply elem_of_cons in H as [H|H]; [discriminate H|]);
      by apply elem_of_nil in H.
  - exists c'. split; [apply HL; simpl; lia|]. split; [exact HI|exact Hq].
Defined.

(** The session of the console on the input of the witness. *)
Example console_session :
  observe (Loop 7 (console
                     (feed [str "hello"; str "hello Bob"; []; str "bye"]
                      ++ str "hel") Buffer))
  = Ok ([str "> "; str "What's your name?" ++ [nl];
         str "> "; str "Hello, Bob" ++ [nl];
         str "> "; str "Hello, Bob" ++ [nl];
         str "> "; str "unrecognized command: bye" ++ [nl];
         str "> "], EOF).
Proof. vm_compute. reflexivity. Qed.

(** [TestOne] of the earlier revision: the message for an unknown command
    holds the raw line, trailing space included. *)
Example TestOne_earlier :
  runTests (Earlier.New commands [] Buffer)
    [str "hello "; str "  "; str "good"; str "good arg1 arg2"; str "bad"]
  = [Ok ([str "unrecognized input: hello " ++ [nl]], None);
     Ok ([str "unrecognized input: hello " ++ [nl]], None);
     Ok ([str "good []" ++ [nl]], None);
     Ok ([str "good [arg1 arg2]" ++ [nl]], None);
     Ok ([str "bad" ++ [nl]], Some "oops"%string)].
Proof. vm_compute. reflexivity. Qed.
